(** * Chocoflan: lexer, postfix parser / code generator and stack VM

    A shallow embedding of [lang.py] and the properties of its pipeline
    [compile_and_run]: source text -> tokens -> bytecode -> stack machine.

    Modelling conventions.
    - A Python [str] is a [string]; a character is an [ascii] read as the
      code point of the same number (the block U+0000..U+00FF).  The
      classification methods [isspace], [isalpha], [isdigit], [isalnum] and
      [lower] give CPython's answers on that block.
    - Python integers are unbounded: [Z].
    - The operand stack is a Python list, bottom first: [append] adds at the
      right end and [pop] removes from the right end.
    - The environment is a Python dict from names to integers: a
      [gmap string Z].
    - Methods that mutate their object are functions from the object to an
      outcome and the mutated object; a raised exception is the outcome
      [Raise], next to the object as it is at that moment. *)

From Stdlib Require Import ZArith NArith Ascii String List Lia Bool.
From stdpp Require Import gmap strings.
Import ListNotations.

Local Open Scope nat_scope.

(** ** Characters *)

Module Char.

Definition ord (c : ascii) : N := N_of_ascii c.

Definition between (lo hi : N) (c : ascii) : bool :=
  ((lo <=? ord c) && (ord c <=? hi))%N.

Definition code_is (k : N) (c : ascii) : bool := (ord c =? k)%N.

(** [str.isspace]: TAB..CR, FS..US, SPACE, NEL, NBSP. *)
Definition isspace (c : ascii) : bool :=
  between 9 13 c || between 28 32 c || code_is 133 c || code_is 160 c.

(** [str.isalpha]: general category L*. *)
Definition isalpha (c : ascii) : bool :=
  between 65 90 c || between 97 122 c
  || code_is 170 c || code_is 181 c || code_is 186 c
  || between 192 214 c || between 216 246 c || between 248 255 c.

(** [str.isdecimal]: general category Nd. *)
Definition isdecimal (c : ascii) : bool := between 48 57 c.

(** [str.isdigit]: the decimal digits and the superscripts 1, 2, 3. *)
Definition isdigit (c : ascii) : bool :=
  isdecimal c || code_is 178 c || code_is 179 c || code_is 185 c.

(** [str.isnumeric]: the digits and the vulgar fractions. *)
Definition isnumeric (c : ascii) : bool := isdigit c || between 188 190 c.

(** [str.isalnum]. *)
Definition isalnum (c : ascii) : bool :=
  isalpha c || isdecimal c || isdigit c || isnumeric c.

(** [str.lower] on one character. *)
Definition lower (c : ascii) : ascii :=
  if between 65 90 c || between 192 214 c || between 216 222 c
  then ascii_of_N (ord c + 32) else c.

Definition NUL : ascii := "000"%char.

End Char.

Fixpoint lower (s : string) : string :=
  match s with
  | EmptyString => EmptyString
  | String c r => String (Char.lower c) (lower r)
  end.

(** The limit of the interpreter on the number of digits of a decimal string
    that [int] converts: [sys.int_info.default_max_str_digits], the value in
    force unless the interpreter is configured otherwise. *)
Definition MAX_STR_DIGITS : N := 4300.

(** [int(text)] on the texts the lexer passes to it, the non-empty runs of
    [isdigit] characters: the base-10 value when every character is a decimal
    digit and the digits are no more than the limit; [ValueError] ([None])
    when a character is a superscript digit or the digits exceed the limit. *)
Fixpoint int_digits (acc : Z) (s : string) : option Z :=
  match s with
  | EmptyString => Some acc
  | String c r =>
      if Char.isdecimal c
      then int_digits (10 * acc + (Z.of_N (Char.ord c) - 48))%Z r
      else None
  end.

Definition int (s : string) : option Z :=
  match s with
  | EmptyString => None
  | _ =>
      if (MAX_STR_DIGITS <? N.of_nat (String.length s))%N then None
      else int_digits 0 s
  end.

(** ** Tokens *)

Module Tok.
Inductive kind :=
| MAIN | END | DEF | IDENT | NUMBER | ADD | SUB | MUL | DIV | EOF | ERROR.

Definition eqb (a b : kind) : bool :=
  match a, b with
  | MAIN, MAIN | END, END | DEF, DEF | IDENT, IDENT | NUMBER, NUMBER
  | ADD, ADD | SUB, SUB | MUL, MUL | DIV, DIV | EOF, EOF | ERROR, ERROR => true
  | _, _ => false
  end.

(** The type of a token is a string in the source; this is it. *)
Definition name (k : kind) : string :=
  match k with
  | MAIN => "MAIN" | END => "END" | DEF => "DEF" | IDENT => "IDENT"
  | NUMBER => "NUMBER" | ADD => "ADD" | SUB => "SUB" | MUL => "MUL"
  | DIV => "DIV" | EOF => "EOF" | ERROR => "ERROR"
  end.
End Tok.

(** The payload of a token: [None], a [str] or an [int]. *)
Inductive value :=
| VNone
| VStr (s : string)
| VInt (z : Z).

Record Token := mkToken { type : Tok.kind; val : value; pos : nat }.

(** ** Bytecode

    An instruction is the pair [(op, arg)] the parser appends: the opcode with
    its operand, an [int] for [PUSH], a name for [LOAD] and [STORE], [None]
    for the others. *)
Inductive instr :=
| PUSH (arg : Z)
| LOAD (arg : string)
| STORE (arg : string)
| ADD
| SUB
| MUL
| DIV
| HALT.

(** ** Outcomes and exceptions *)

Inductive exn :=
| SyntaxError (msg : string) (got : Token)
    (* f"{msg} at pos {got.pos}, got {got}" *)
| ValueError (literal : string)
| RuntimeError (msg : string)
| NameError (msg : string)
| ZeroDivisionError (msg : string).

(** [Timeout] is the outcome of a loop cut off by its iteration bound; the
    bounds below are shown to be large enough for it never to occur. *)
Inductive result (A : Type) :=
| Ret (a : A)
| Raise (e : exn)
| Timeout.
Arguments Ret {A} a.
Arguments Raise {A} e.
Arguments Timeout {A}.

Definition M (S A : Type) : Type := S -> result A * S.

Definition ret {S A} (a : A) : M S A := fun s => (Ret a, s).

Definition raise {S A} (e : exn) : M S A := fun s => (Raise e, s).

Definition timeout {S A} : M S A := fun s => (Timeout, s).

Definition bind {S A B} (m : M S A) (k : A -> M S B) : M S B :=
  fun s =>
    match m s with
    | (Ret a, s') => k a s'
    | (Raise e, s') => (Raise e, s')
    | (Timeout, s') => (Timeout, s')
    end.

Definition gets {S A} (f : S -> A) : M S A := fun s => (Ret (f s), s).

Definition modify {S} (f : S -> S) : M S unit := fun s => (Ret tt, f s).

Declare Scope py_scope.
Delimit Scope py_scope with py.
Notation "'do' x <- m ; k" := (bind m (fun x => k))
  (at level 10, x name, m at level 100, k at level 200) : py_scope.
Notation "'exec' m ; k" := (bind m (fun _ => k))
  (at level 10, m at level 100, k at level 200) : py_scope.

(** ** Lexer *)

Module Lexer.

Record t := mk { src : string; i : nat }.

(** [self.n = len(src)], fixed by [__init__]; [src] is never assigned again. *)
Definition n (l : t) : nat := String.length (src l).

Definition init (s : string) : t := {| src := s; i := 0 |}.

Definition KEYWORDS (s : string) : option Tok.kind :=
  if String.eqb s "main" then Some Tok.MAIN
  else if String.eqb s "end" then Some Tok.END
  else if String.eqb s "def" then Some Tok.DEF
  else None.

Definition peek (l : t) : ascii :=
  if i l <? n l then
    match String.get (i l) (src l) with
    | Some c => c
    | None => Char.NUL
    end
  else Char.NUL.

Definition match_ (expected : ascii) (l : t) : bool * t :=
  if Ascii.eqb (peek l) expected
  then (true, {| src := src l; i := i l + 1 |})
  else (false, l).

Definition advance (l : t) : ascii * t :=
  (peek l, {| src := src l; i := i l + 1 |}).

(** [while p(self.peek()): self.advance()].  The three loops of the lexer
    test a class that excludes the end marker, so each of them advances at
    most [n - i] times: that is the bound, and [advance_while_stops] shows
    that the loop condition is false when the function returns. *)
Fixpoint advance_loop (p : ascii -> bool) (fuel : nat) (l : t) : t :=
  match fuel with
  | 0 => l
  | S fuel' =>
      if p (peek l) then advance_loop p fuel' (snd (advance l)) else l
  end.

Definition advance_while (p : ascii -> bool) (l : t) : t :=
  advance_loop p (n l - i l) l.

Definition consume_ws (l : t) : t := advance_while Char.isspace l.

Definition ident_char (c : ascii) : bool :=
  Char.isalnum c || Ascii.eqb c "_"%char.

Definition next_token : M t Token := fun l =>
  let l := consume_ws l in
  let ch := peek l in
  let pos := i l in
  if Ascii.eqb ch Char.NUL then (Ret (mkToken Tok.EOF VNone pos), l)
  else if Char.isalpha ch || Ascii.eqb ch "_"%char then
    let start := i l in
    let l := advance_while ident_char l in
    let text := String.substring start (i l - start) (src l) in
    match KEYWORDS (lower text) with
    | Some kw => (Ret (mkToken kw (VStr text) pos), l)
    | None => (Ret (mkToken Tok.IDENT (VStr text) pos), l)
    end
  else if Char.isdigit ch then
    let start := i l in
    let l := advance_while Char.isdigit l in
    let text := String.substring start (i l - start) (src l) in
    match int text with
    | Some num => (Ret (mkToken Tok.NUMBER (VInt num) pos), l)
    | None => (Raise (ValueError text), l)
    end
  else
    let (c, l) := advance l in
    if Ascii.eqb c "+"%char then (Ret (mkToken Tok.ADD (VStr "+") pos), l)
    else if Ascii.eqb c "-"%char then (Ret (mkToken Tok.SUB (VStr "-") pos), l)
    else if Ascii.eqb c "*"%char then (Ret (mkToken Tok.MUL (VStr "*") pos), l)
    else if Ascii.eqb c "/"%char then (Ret (mkToken Tok.DIV (VStr "/") pos), l)
    else (Ret (mkToken Tok.ERROR (VStr (String c EmptyString)) pos), l).

End Lexer.

(** ** Parser *)

Module Parser.

Record t := mk { lexer : Lexer.t; cur : Token; code : list instr }.

Definition set_cur (tok : Token) (p : t) : t :=
  {| lexer := lexer p; cur := tok; code := code p |}.

(** [Parser(lexer)]: the first token is read by the constructor. *)
Definition init (lx : Lexer.t) : result t :=
  match Lexer.next_token lx with
  | (Ret tok, lx') => Ret {| lexer := lx'; cur := tok; code := [] |}
  | (Raise e, _) => Raise e
  | (Timeout, _) => Timeout
  end.

(** [self.lexer.next_token()] *)
Definition lexer_next_token : M t Token := fun p =>
  let (r, lx) := Lexer.next_token (lexer p) in
  (r, {| lexer := lx; cur := cur p; code := code p |}).

Definition error {A} (msg : string) : M t A := fun p =>
  (Raise (SyntaxError msg (cur p)), p).

Definition match_ (typ : Tok.kind) : M t bool :=
  (do c <- gets cur;
   if Tok.eqb (type c) typ then
     do tok <- lexer_next_token;
     exec modify (set_cur tok);
     ret true
   else ret false)%py.

Definition expect (typ : Tok.kind) : M t unit :=
  (do ok <- match_ typ;
   if negb ok then error ("Expected " +:+ Tok.name typ) else ret tt)%py.

Definition emit (ins : instr) : M t unit :=
  modify (fun p => {| lexer := lexer p; cur := cur p; code := code p ++ [ins] |}).

(** The payloads the lexer attaches: an [int] to a NUMBER token and the
    lexeme to an IDENT token ([token_payload]). *)
Definition as_int (v : value) : Z :=
  match v with VInt z => z | _ => 0%Z end.

Definition as_str (v : value) : string :=
  match v with VStr s => s | _ => EmptyString end.

Definition expression : M t unit :=
  (do c <- gets cur;
   match type c with
   | Tok.NUMBER =>
       let val := val c in
       exec match_ Tok.NUMBER;
       emit (PUSH (as_int val))
   | Tok.IDENT =>
       let name := val c in
       exec match_ Tok.IDENT;
       emit (LOAD (as_str name))
   | Tok.DEF =>
       exec match_ Tok.DEF;
       do c' <- gets cur;
       if negb (Tok.eqb (type c') Tok.IDENT)
       then error "Identifier after 'def'"
       else
         let name := val c' in
         exec match_ Tok.IDENT;
         emit (STORE (as_str name))
   | Tok.ADD => exec match_ Tok.ADD; emit ADD
   | Tok.SUB => exec match_ Tok.SUB; emit SUB
   | Tok.MUL => exec match_ Tok.MUL; emit MUL
   | Tok.DIV => exec match_ Tok.DIV; emit DIV
   | _ => error "Unexpected token in expression"
   end)%py.

Definition block_end (k : Tok.kind) : bool :=
  Tok.eqb k Tok.END || Tok.eqb k Tok.EOF.

(** [while self.cur.type not in ("END", "EOF"): self.expression()], cut off
    after [fuel] iterations. *)
Fixpoint code_block_loop (fuel : nat) : M t unit :=
  (do c <- gets cur;
   if block_end (type c) then ret tt
   else
     match fuel with
     | 0 => timeout
     | S fuel' => exec expression; code_block_loop fuel'
     end)%py.

(** Every iteration but the last leaves a lookahead that is not EOF, hence
    moves the lexer forward: [n - i + 1] iterations are enough
    ([code_block_total]). *)
Definition code_block : M t unit := fun p =>
  code_block_loop (Lexer.n (lexer p) - Lexer.i (lexer p) + 1) p.

Definition program : M t (list instr) :=
  (do c <- gets cur;
   exec (if Tok.eqb (type c) Tok.MAIN then
           exec match_ Tok.MAIN;
           exec code_block;
           expect Tok.END
         else code_block);
   exec expect Tok.EOF;
   exec emit HALT;
   gets code)%py.

End Parser.

(** ** Stack VM *)

Module VM.

Record t := mk {
  code : list instr;
  pc : nat;
  stack : list Z;
  env : gmap string Z
}.

Definition init (code : list instr) : t :=
  {| code := code; pc := 0; stack := []; env := ∅ |}.

Definition set_pc (k : nat) (vm : t) : t :=
  {| code := code vm; pc := k; stack := stack vm; env := env vm |}.

Definition set_stack (s : list Z) (vm : t) : t :=
  {| code := code vm; pc := pc vm; stack := s; env := env vm |}.

Definition set_env (e : gmap string Z) (vm : t) : t :=
  {| code := code vm; pc := pc vm; stack := stack vm; env := e |}.

(** [self.stack.append(x)] *)
Definition stack_append (x : Z) : M t unit :=
  modify (fun vm => set_stack (stack vm ++ [x]) vm).

(** [self.stack.pop()], called on a non-empty stack only. *)
Definition stack_pop : M t Z := fun vm =>
  (Ret (List.last (stack vm) 0%Z), set_stack (List.removelast (stack vm)) vm).

Definition pop1 : M t Z :=
  (do s <- gets stack;
   match s with
   | [] => raise (RuntimeError "Stack underflow: need one operand")
   | _ => stack_pop
   end)%py.

Definition pop2 : M t (Z * Z) :=
  (do s <- gets stack;
   if length s <? 2
   then raise (RuntimeError "Stack underflow: need two operands")
   else
     do b <- stack_pop;
     do a <- stack_pop;
     ret (a, b))%py.

(** The body of the loop after the fetch: [true] when the instruction is
    HALT and [run] returns. *)
Definition dispatch (ins : instr) : M t bool :=
  (match ins with
   | HALT => ret true
   | PUSH arg =>
       exec stack_append arg;
       ret false
   | LOAD arg =>
       do e <- gets env;
       match e !! arg with
       | None => raise (NameError ("Undefined identifier '" +:+ arg +:+ "'"))
       | Some v => exec stack_append v; ret false
       end
   | STORE arg =>
       do val <- pop1;
       exec modify (fun vm => set_env (<[arg := val]> (env vm)) vm);
       ret false
   | ADD =>
       do ab <- pop2;
       exec stack_append (fst ab + snd ab)%Z;
       ret false
   | SUB =>
       do ab <- pop2;
       exec stack_append (fst ab - snd ab)%Z;
       ret false
   | MUL =>
       do ab <- pop2;
       exec stack_append (fst ab * snd ab)%Z;
       ret false
   | DIV =>
       do ab <- pop2;
       if (snd ab =? 0)%Z
       then raise (ZeroDivisionError "Division by zero")
       else exec stack_append (fst ab / snd ab)%Z; ret false
   end)%py.

(** [self.code[self.pc]], in range by the loop condition. *)
Definition fetch (vm : t) : instr := nth (pc vm) (code vm) HALT.

(** One iteration of the loop: fetch, [self.pc += 1], dispatch. *)
Definition step : M t bool :=
  (do ins <- gets fetch;
   exec modify (fun vm => set_pc (pc vm + 1) vm);
   dispatch ins)%py.

(** [while self.pc < len(self.code): ...], cut off after [fuel] iterations. *)
Fixpoint run_loop (fuel : nat) : M t unit := fun vm =>
  if pc vm <? length (code vm) then
    match fuel with
    | 0 => (Timeout, vm)
    | S fuel' =>
        (do halt <- step;
         if halt then ret tt else run_loop fuel')%py vm
    end
  else (Ret tt, vm).

(** [pc] grows by one in every iteration: [len(code) - pc] iterations are
    enough ([run_no_timeout]). *)
Definition run : M t unit := fun vm =>
  run_loop (length (code vm) - pc vm) vm.

End VM.

(** ** The pipeline *)

(** The first three statements of [compile_and_run]: the bytecode. *)
Definition compile (src : string) : result (list instr) :=
  let l := Lexer.init src in
  match Parser.init l with
  | Ret p => fst (Parser.program p)
  | Raise e => Raise e
  | Timeout => Timeout
  end.

(** [compile_and_run] up to the printing: the outcome, with the machine
    whose [env] and [stack] are printed. *)
Definition compile_and_run (src : string) : result VM.t :=
  match compile src with
  | Ret bytecode =>
      let vm := VM.init bytecode in
      match VM.run vm with
      | (Ret _, vm') => Ret vm'
      | (Raise e, _) => Raise e
      | (Timeout, _) => Timeout
      end
  | Raise e => Raise e
  | Timeout => Timeout
  end.

(** * The vocabulary of the properties *)

(** ** Machine states *)

(** The machine after one more fetch, with [s] as its stack. *)
Definition after_fetch (s : list Z) (vm : VM.t) : VM.t :=
  VM.set_stack s (VM.set_pc (VM.pc vm + 1) vm).

(** A machine about to fetch the first instruction of [code]. *)
Definition machine (code : list instr) (stack : list Z) (env : gmap string Z)
  : VM.t := {| VM.code := code; VM.pc := 0; VM.stack := stack; VM.env := env |}.

(** The four instructions that take two operands. *)
Definition arithmetic (ins : instr) : bool :=
  match ins with
  | ADD | SUB | MUL | DIV => true
  | _ => false
  end.

(** ** Source texts *)

Module Str.

(** Every character of [s] is in the class [p]. *)
Fixpoint all (p : ascii -> bool) (s : string) : bool :=
  match s with
  | EmptyString => true
  | String c r => p c && all p r
  end.

(** The character at the start of [s]; the end marker when [s] is empty. *)
Definition head (s : string) : ascii :=
  match s with
  | EmptyString => Char.NUL
  | String c _ => c
  end.

(** The string of the one character [c]. *)
Definition one (c : ascii) : string := String c EmptyString.

End Str.

(** The lexer of a source [pre +:+ rest] with its cursor behind [pre]. *)
Definition at_ (pre rest : string) : Lexer.t :=
  {| Lexer.src := pre +:+ rest; Lexer.i := String.length pre |}.

(** One of [+ - * /]. *)
Definition operator_char (c : ascii) : bool :=
  Ascii.eqb c "+" || Ascii.eqb c "-" || Ascii.eqb c "*" || Ascii.eqb c "/".

(** ** Programs *)

Definition is_halt (ins : instr) : bool :=
  match ins with
  | HALT => true
  | _ => false
  end.

(** The number of HALT instructions of a program. *)
Definition count_halt (code : list instr) : nat :=
  length (List.filter is_halt code).

(** What a parser method appends to [self.code] when it returns. *)
Definition appends {A} (m : M Parser.t A) (ok : instr -> bool) : Prop :=
  forall p a p',
    m p = (Ret a, p') ->
    exists out, Parser.code p' = Parser.code p ++ out /\ forallb ok out = true.

Definition not_halt (ins : instr) : bool := negb (is_halt ins).

(** The number of iterations [VM.run_loop] performs: an iteration that
    halts or raises is the last one. *)
Fixpoint iterations (fuel : nat) (vm : VM.t) : nat :=
  if VM.pc vm <? length (VM.code vm) then
    match fuel with
    | 0 => 0
    | S fuel' =>
        match VM.step vm with
        | (Ret false, vm') => S (iterations fuel' vm')
        | _ => 1
        end
    end
  else 0.

Definition dispatch_steps (vm : VM.t) : nat :=
  iterations (length (VM.code vm) - VM.pc vm) vm.







(** ** Postfix expressions: the reference evaluation *)

Inductive binop := OAdd | OSub | OMul | ODiv.

(** The lexemes of an expression without identifiers: integer literals, as
    written, and operator symbols. *)
Inductive lexeme :=
| LNum (digits : string)
| LOp (op : binop).

(** The value of a decimal numeral, digit by digit with its weight. *)
Fixpoint decimal (digits : string) : Z :=
  match digits with
  | EmptyString => 0
  | String c r =>
      (Z.of_N (Char.ord c) - 48) * 10 ^ Z.of_nat (String.length r) + decimal r
  end%Z.

Definition apply_op (op : binop) (a b : Z) : option Z :=
  match op with
  | OAdd => Some (a + b)%Z
  | OSub => Some (a - b)%Z
  | OMul => Some (a * b)%Z
  | ODiv => if (b =? 0)%Z then None else Some (a / b)%Z
  end.

(** Left-to-right evaluation on a stack of values, the top first: a literal
    is pushed, an operator replaces the two top values [a] (below) and [b]
    (above) by [a op b].  [None] when an operator lacks an operand or a
    divisor is zero. *)
Fixpoint rpn (toks : list lexeme) (st : list Z) : option (list Z) :=
  match toks with
  | [] => Some st
  | LNum digits :: rest => rpn rest (decimal digits :: st)
  | LOp op :: rest =>
      match st with
      | b :: a :: st' =>
          match apply_op op a b with
          | Some c => rpn rest (c :: st')
          | None => None
          end
      | _ => None
      end
  end.

(** Expression trees, their value and their postfix form. *)
Inductive expr :=
| Lit (digits : string)
| Bin (op : binop) (l r : expr).

Fixpoint eval (e : expr) : option Z :=
  match e with
  | Lit digits => Some (decimal digits)
  | Bin op l r =>
      match eval l, eval r with
      | Some a, Some b => apply_op op a b
      | _, _ => None
      end
  end.

Fixpoint postfix (e : expr) : list lexeme :=
  match e with
  | Lit digits => [LNum digits]
  | Bin op l r => postfix l ++ postfix r ++ [LOp op]
  end.

(** ** Postfix expressions: their source text *)

Definition symbol (op : binop) : ascii :=
  match op with
  | OAdd => "+" | OSub => "-" | OMul => "*" | ODiv => "/"
  end%char.

Definition text (x : lexeme) : string :=
  match x with
  | LNum digits => digits
  | LOp op => Str.one (symbol op)
  end.

Definition is_num (x : lexeme) : bool :=
  match x with
  | LNum _ => true
  | LOp _ => false
  end.

Definition is_empty (s : string) : bool :=
  match s with
  | EmptyString => true
  | _ => false
  end.

(** The digits are no more than [int] converts. *)
Definition within_limit (digits : string) : bool :=
  (N.of_nat (String.length digits) <=? MAX_STR_DIGITS)%N.

(** A literal is a non-empty run of the digits 0..9, no longer than [int]
    converts. *)
Definition lexeme_ok (x : lexeme) : bool :=
  match x with
  | LNum digits =>
      negb (is_empty digits) && Str.all Char.isdecimal digits
      && within_limit digits
  | LOp _ => true
  end.

(** The literal of [k] digits one. *)
Fixpoint ones (k : nat) : string :=
  match k with
  | 0 => EmptyString
  | S k' => String "1" (ones k')
  end.

(** The source: every lexeme behind a gap, and [tail] behind the last. *)
Fixpoint spell (pieces : list (string * lexeme)) (tail : string) : string :=
  match pieces with
  | [] => tail
  | (gap, x) :: rest => gap +:+ text x +:+ spell rest tail
  end.

(** The gaps are white space, and a literal that follows a literal is
    separated from it. *)
Fixpoint spaced (after_num : bool) (pieces : list (string * lexeme)) : bool :=
  match pieces with
  | [] => true
  | (gap, x) :: rest =>
      Str.all Char.isspace gap
      && lexeme_ok x
      && negb (after_num && is_num x && is_empty gap)
      && spaced (is_num x) rest
  end.

(** ** Postfix expressions: their tokens and bytecode *)

Definition instr_of (x : lexeme) : instr :=
  match x with
  | LNum digits => PUSH (decimal digits)
  | LOp OAdd => ADD
  | LOp OSub => SUB
  | LOp OMul => MUL
  | LOp ODiv => DIV
  end.

Definition token_of (x : lexeme) (pos : nat) : Token :=
  match x with
  | LNum digits => mkToken Tok.NUMBER (VInt (decimal digits)) pos
  | LOp OAdd => mkToken Tok.ADD (VStr "+") pos
  | LOp OSub => mkToken Tok.SUB (VStr "-") pos
  | LOp OMul => mkToken Tok.MUL (VStr "*") pos
  | LOp ODiv => mkToken Tok.DIV (VStr "/") pos
  end.

(** The cursor of the parser's lexer is inside the source. *)
Definition inside (p : Parser.t) : Prop :=
  Lexer.i (Parser.lexer p) <= Lexer.n (Parser.lexer p).

(** From [p] to [p'] the lexer has moved on, unless the lookahead of [p'] is
    EOF. *)
Definition moved (p p' : Parser.t) : Prop :=
  type (Parser.cur p') = Tok.EOF \/
  Lexer.i (Parser.lexer p) < Lexer.i (Parser.lexer p').

(** ** The whole surface: expression forms *)

(** The first character of an identifier or keyword. *)
Definition word_start (c : ascii) : bool :=
  Char.isalpha c || Ascii.eqb c "_"%char.

(** A lexeme of the identifier branch of the lexer: a first character that
    is alphabetic or an underscore, then alphanumerics and underscores. *)
Definition word_shape (w : string) : bool :=
  match w with
  | EmptyString => false
  | String c r => word_start c && Str.all Lexer.ident_char r
  end.

(** The type of the token of a word: its keyword, whatever the case of its
    letters, or IDENT. *)
Definition word_kind (w : string) : Tok.kind :=
  match Lexer.KEYWORDS (lower w) with
  | Some kw => kw
  | None => Tok.IDENT
  end.

(** An identifier: a word that is no keyword. *)
Definition name_ok (name : string) : bool :=
  word_shape name && Tok.eqb (word_kind name) Tok.IDENT.

(** A spelling of the keyword [k]. *)
Definition keyword_ok (k : Tok.kind) (kw : string) : bool :=
  word_shape kw && Tok.eqb (word_kind kw) k && negb (Tok.eqb k Tok.IDENT).

(** The expression forms of the grammar, as written: a literal or an
    operator, an identifier, and a [def] keyword with the white space and
    the identifier behind it. *)
Inductive form :=
| FLex (x : lexeme)
| FName (name : string)
| FDef (kw gap name : string).

Definition form_ok (f : form) : bool :=
  match f with
  | FLex x => lexeme_ok x
  | FName name => name_ok name
  | FDef kw gap name =>
      keyword_ok Tok.DEF kw
      && negb (is_empty gap) && Str.all Char.isspace gap
      && name_ok name
  end.

(** The text of the first token of a form, and the text behind it. *)
Definition first_text (f : form) : string :=
  match f with
  | FLex x => text x
  | FName name => name
  | FDef kw _ _ => kw
  end.

Definition more_text (f : form) : string :=
  match f with
  | FDef _ gap name => gap +:+ name
  | _ => EmptyString
  end.

Definition form_text (f : form) : string := first_text f +:+ more_text f.

(** The character [c] behind a form does not prolong its last token. *)
Definition delimited (f : form) (c : ascii) : bool :=
  match f with
  | FLex (LNum _) => negb (Char.isdigit c)
  | FLex (LOp _) => true
  | FName _ | FDef _ _ _ => negb (Lexer.ident_char c)
  end.

(** The source: every form behind a gap, and [tail] behind the last. *)
Fixpoint spell_forms (pieces : list (string * form)) (tail : string) : string :=
  match pieces with
  | [] => tail
  | (gap, f) :: rest => gap +:+ form_text f +:+ spell_forms rest tail
  end.

(** The gaps are white space, the forms are well written, and what follows
    a form does not prolong it. *)
Fixpoint well_spaced (pieces : list (string * form)) (tail : string) : bool :=
  match pieces with
  | [] => true
  | (gap, f) :: rest =>
      Str.all Char.isspace gap
      && form_ok f
      && delimited f (Str.head (spell_forms rest tail))
      && well_spaced rest tail
  end.

(** The instruction the parser emits for a form. *)
Definition instr_of_form (f : form) : instr :=
  match f with
  | FLex x => instr_of x
  | FName name => LOAD name
  | FDef _ _ name => STORE name
  end.

Definition bytecode (pieces : list (string * form)) : list instr :=
  map (fun p => instr_of_form (snd p)) pieces.

(** The first token of a form that starts at [pos]. *)
Definition first_token (f : form) (pos : nat) : Token :=
  match f with
  | FLex x => token_of x pos
  | FName name => mkToken Tok.IDENT (VStr name) pos
  | FDef kw _ _ => mkToken Tok.DEF (VStr kw) pos
  end.

(** The meaning of a sequence of forms on a stack (top first) and an
    environment: the stack and environment it leaves, or the failure it
    ends in. *)
Fixpoint sem (fs : list form) (st : list Z) (env : gmap string Z)
  : exn + (list Z * gmap string Z) :=
  match fs with
  | [] => inr (st, env)
  | FLex (LNum digits) :: rest => sem rest (decimal digits :: st) env
  | FLex (LOp op) :: rest =>
      match st with
      | b :: a :: st' =>
          match apply_op op a b with
          | Some c => sem rest (c :: st') env
          | None => inl (ZeroDivisionError "Division by zero")
          end
      | _ => inl (RuntimeError "Stack underflow: need two operands")
      end
  | FName name :: rest =>
      match env !! name with
      | Some v => sem rest (v :: st) env
      | None => inl (NameError ("Undefined identifier '" +:+ name +:+ "'"))
      end
  | FDef _ _ name :: rest =>
      match st with
      | v :: st' => sem rest st' (<[name := v]> env)
      | [] => inl (RuntimeError "Stack underflow: need one operand")
      end
  end.

(** The character is the superscript one, two or three: a digit for
    [str.isdigit] that [int] rejects. *)
Definition superscript (c : ascii) : bool :=
  Char.isdigit c && negb (Char.isdecimal c).

(** No run of [isdigit] characters of [s], counted with the [run] of them
    just before [s], is longer than [int] converts. *)
Fixpoint runs_within (run : nat) (s : string) : bool :=
  match s with
  | EmptyString => true
  | String c r =>
      if Char.isdigit c
      then (N.of_nat (S run) <=? MAX_STR_DIGITS)%N && runs_within (S run) r
      else runs_within 0 r
  end.

(** The names a program stores. *)
Fixpoint stored (code : list instr) : gset string :=
  match code with
  | [] => ∅
  | STORE x :: rest => {[ x ]} ∪ stored rest
  | _ :: rest => stored rest
  end.

(** The failure [e] is one that the instruction [ins] can raise. *)
Definition raised_by (ins : instr) (e : exn) : Prop :=
  match ins with
  | LOAD name => e = NameError ("Undefined identifier '" +:+ name +:+ "'")
  | STORE _ => e = RuntimeError "Stack underflow: need one operand"
  | ADD | SUB | MUL => e = RuntimeError "Stack underflow: need two operands"
  | DIV =>
      e = RuntimeError "Stack underflow: need two operands" \/
      e = ZeroDivisionError "Division by zero"
  | PUSH _ | HALT => False
  end.

(** The failures of the lexer and the parser. *)
Definition lexical_failure (e : exn) : Prop :=
  exists literal, e = ValueError literal.

Definition syntax_failure (e : exn) : Prop :=
  exists msg tok,
    e = SyntaxError msg tok /\
    In msg ["Expected END"; "Expected EOF"; "Identifier after 'def'";
            "Unexpected token in expression"].

(** ** Parser states and failures *)

(** What [program] does behind the code block. *)
Definition finish : M Parser.t (list instr) :=
  (exec Parser.expect Tok.EOF; exec Parser.emit HALT; gets Parser.code)%py.

(** The failures a parser method can raise are among [P]. *)
Definition raises {A} (m : M Parser.t A) (P : exn -> Prop) : Prop :=
  forall p e p', m p = (Raise e, p') -> P e.

Definition parse_failure (e : exn) : Prop :=
  lexical_failure e \/ syntax_failure e.

(** A NUMBER token carries an [int] that is not negative. *)
Definition number_ok (tok : Token) : Prop :=
  type tok = Tok.NUMBER -> exists z : Z, val tok = VInt z /\ (0 <= z)%Z.

(** No PUSH of the program has a negative operand. *)
Definition pushes_ok (code : list instr) : Prop :=
  forall z : Z, In (PUSH z) code -> (0 <= z)%Z.

Definition push_ok (ins : instr) : Prop :=
  forall z : Z, ins = PUSH z -> (0 <= z)%Z.

Definition good (p : Parser.t) : Prop :=
  number_ok (Parser.cur p) /\ pushes_ok (Parser.code p).

(** A parser method keeps [good] when it returns. *)
Definition keeps {A} (m : M Parser.t A) : Prop :=
  forall p a p', good p -> m p = (Ret a, p') -> good p'.

(** * Properties *)

(** ** The operand stack *)

Lemma pop_last (s : list Z) (x d : Z) :
  List.last (s ++ [x]) d = x /\ List.removelast (s ++ [x]) = s.
Proof. split; [apply last_last | apply removelast_last]. Qed.

Lemma stack_two (s : list Z) (a b : Z) : s ++ [a; b] = (s ++ [a]) ++ [b].
Proof. now rewrite <- app_assoc. Qed.

Lemma short_or_two (s : list Z) :
  length s < 2 \/ exists s' a b, s = s' ++ [a; b].
Proof.
  destruct s as [|x s] using rev_ind; [left; simpl; lia|].
  destruct s as [|y s _] using rev_ind; [left; simpl; lia|].
  right. exists s, y, x. now rewrite <- app_assoc.
Qed.

Lemma pop2_ok (vm : VM.t) (s : list Z) (a b : Z) :
  VM.stack vm = s ++ [a; b] ->
  VM.pop2 vm = (Ret (a, b), VM.set_stack s vm).
Proof.
  intros Hs. unfold VM.pop2, bind, gets, VM.stack_pop, ret. rewrite Hs.
  assert (Hlen : (length (s ++ [a; b]) <? 2) = false).
  { apply Nat.ltb_ge. rewrite length_app. simpl. lia. }
  rewrite Hlen. cbn [VM.stack VM.set_stack]. rewrite Hs, stack_two.
  destruct (pop_last (s ++ [a]) b 0%Z) as [-> ->].
  destruct (pop_last s a 0%Z) as [-> ->].
  reflexivity.
Qed.

Lemma pop2_underflow (vm : VM.t) :
  length (VM.stack vm) < 2 ->
  VM.pop2 vm = (Raise (RuntimeError "Stack underflow: need two operands"), vm).
Proof.
  intros Hlen. unfold VM.pop2, bind, gets, raise.
  apply Nat.ltb_lt in Hlen. now rewrite Hlen.
Qed.

Lemma pop1_ok (vm : VM.t) (s : list Z) (a : Z) :
  VM.stack vm = s ++ [a] ->
  VM.pop1 vm = (Ret a, VM.set_stack s vm).
Proof.
  intros Hs. unfold VM.pop1, bind, gets, VM.stack_pop. rewrite Hs.
  destruct (pop_last s a 0%Z) as [Hl Hr].
  destruct s; cbn [app]; rewrite Hs, ?Hl, ?Hr; reflexivity.
Qed.

Lemma pop1_underflow (vm : VM.t) :
  VM.stack vm = [] ->
  VM.pop1 vm = (Raise (RuntimeError "Stack underflow: need one operand"), vm).
Proof. intros Hs. unfold VM.pop1, bind, gets. now rewrite Hs. Qed.

(** What one iteration does for each fetched instruction. *)
Lemma step_fetch (vm : VM.t) :
  VM.step vm = VM.dispatch (VM.fetch vm) (VM.set_pc (VM.pc vm + 1) vm).
Proof. reflexivity. Qed.

(** ** C4: division and subtraction *)

(** Python's [//] is [Z.div]: the quotient rounded toward negative
    infinity, whatever the signs. *)
Lemma floor_div_spec (a b : Z) :
  b <> 0%Z ->
  ((0 < b -> b * (a / b) <= a < b * (a / b + 1)) /\
   (b < 0 -> b * (a / b + 1) < a <= b * (a / b)))%Z.
Proof.
  intros Hb. split; intros Hs.
  - pose proof (Z.mod_pos_bound a b Hs). pose proof (Z.div_mod a b Hb). lia.
  - pose proof (Z.mod_neg_bound a b Hs). pose proof (Z.div_mod a b Hb). lia.
Qed.

Lemma floor_below_trunc (a b : Z) :
  b <> 0%Z -> (a mod b <> 0)%Z ->
  ((a < 0 /\ 0 < b) \/ (0 < a /\ b < 0))%Z ->
  (a / b = Z.quot a b - 1)%Z.
Proof.
  intros Hb Hm Hsign.
  pose proof (Z.div_mod a b Hb) as Hdm.
  pose proof (Z.quot_rem' a b) as Hqr.
  destruct Hsign as [[Ha Hb'] | [Ha Hb']].
  - pose proof (Z.mod_pos_bound a b Hb').
    pose proof (Z.rem_bound_pos_neg a b Hb' ltac:(lia)).
    assert (Z.rem a b <> 0)%Z by (intros E; rewrite E in Hqr; apply Hm;
      apply Z.mod_divide; [lia | exists (Z.quot a b); lia]).
    nia.
  - pose proof (Z.mod_neg_bound a b Hb').
    pose proof (Z.rem_bound_neg_pos a b Hb' ltac:(lia)).
    assert (Z.rem a b <> 0)%Z by (intros E; rewrite E in Hqr; apply Hm;
      apply Z.mod_divide; [lia | exists (Z.quot a b); lia]).
    nia.
Qed.

(** C4.  On a stack that ends with [a] below [b], SUB replaces the two by
    [a - b], and DIV with [b] non-zero replaces them by the quotient [q] of
    [a] by [b] rounded toward negative infinity: [q <= a/b < q+1].  Where
    the exact quotient is negative and not an integer, [q] is one below the
    quotient truncated toward zero.  The deeper value is the left operand,
    the top one the right operand. *)
Theorem div_floor_sub_operand_order (vm : VM.t) (s : list Z) (a b : Z) :
  VM.stack vm = s ++ [a; b] ->
  (VM.fetch vm = SUB ->
   VM.step vm = (Ret false, after_fetch (s ++ [(a - b)%Z]) vm)) /\
  (VM.fetch vm = DIV -> b <> 0%Z ->
   exists q : Z,
     VM.step vm = (Ret false, after_fetch (s ++ [q]) vm) /\
     (0 < b -> b * q <= a < b * (q + 1))%Z /\
     (b < 0 -> b * (q + 1) < a <= b * q)%Z /\
     ((a mod b <> 0)%Z -> ((a < 0 /\ 0 < b) \/ (0 < a /\ b < 0))%Z ->
      q = (Z.quot a b - 1)%Z)).
Proof.
  intros Hs.
  assert (Hpop : VM.pop2 (VM.set_pc (VM.pc vm + 1) vm)
                 = (Ret (a, b), after_fetch s vm)) by now apply pop2_ok.
  split.
  - intros Hf. rewrite step_fetch, Hf.
    unfold VM.dispatch, bind. rewrite Hpop. reflexivity.
  - intros Hf Hb. exists (a / b)%Z.
    destruct (floor_div_spec a b Hb) as [Hpos Hneg].
    repeat split; try (intros; apply Hpos || apply Hneg; assumption).
    + rewrite step_fetch, Hf. unfold VM.dispatch, bind. rewrite Hpop.
      cbn [fst snd]. apply Z.eqb_neq in Hb. rewrite Hb. reflexivity.
    + now apply floor_below_trunc.
Qed.

Lemma div_floor_sub_operand_order_witness :
  VM.step (machine [SUB] [3; 10]%Z ∅)
  = (Ret false, after_fetch [(-7)%Z] (machine [SUB] [3; 10]%Z ∅)) /\
  VM.step (machine [DIV] [-7; 2]%Z ∅)
  = (Ret false, after_fetch [(-4)%Z] (machine [DIV] [-7; 2]%Z ∅)).
Proof.
  split.
  - exact (proj1 (div_floor_sub_operand_order
                    (machine [SUB] [3; 10]%Z ∅) [] 3%Z 10%Z eq_refl) eq_refl).
  - destruct (proj2 (div_floor_sub_operand_order
                       (machine [DIV] [-7; 2]%Z ∅) [] (-7)%Z 2%Z eq_refl)
                eq_refl ltac:(lia)) as (q & Hstep & Hpos & _ & _).
    assert (q = (-4)%Z) by lia. subst q. exact Hstep.
Defined.

(** ** C5: LOAD *)

(** C5.  LOAD of a name the environment holds pushes the value bound to it
    and raises nothing; LOAD of any other name raises the
    undefined-identifier failure, whose message quotes the name. *)
Theorem load_bound_or_undefined (vm : VM.t) (name : string) :
  VM.fetch vm = LOAD name ->
  VM.step vm =
  match VM.env vm !! name with
  | Some v => (Ret false, after_fetch (VM.stack vm ++ [v]) vm)
  | None =>
      (Raise (NameError ("Undefined identifier '" +:+ name +:+ "'")),
       VM.set_pc (VM.pc vm + 1) vm)
  end.
Proof.
  intros Hf. rewrite step_fetch, Hf.
  unfold VM.dispatch, bind, gets. cbn [VM.env VM.set_pc].
  destruct (VM.env vm !! name); reflexivity.
Qed.

Lemma load_bound_or_undefined_witness :
  VM.step (machine [LOAD "x"] [] {[ "x" := 10%Z ]})
  = (Ret false, after_fetch [10%Z] (machine [LOAD "x"] [] {[ "x" := 10%Z ]})) /\
  VM.step (machine [LOAD "y"] [] {[ "x" := 10%Z ]})
  = (Raise (NameError "Undefined identifier 'y'"),
     VM.set_pc 1 (machine [LOAD "y"] [] {[ "x" := 10%Z ]})).
Proof.
  split.
  - exact (load_bound_or_undefined
             (machine [LOAD "x"] [] {[ "x" := 10%Z ]}) "x" eq_refl).
  - exact (load_bound_or_undefined
             (machine [LOAD "y"] [] {[ "x" := 10%Z ]}) "y" eq_refl).
Defined.

(** ** C6: stack underflow *)

(** C6.  An arithmetic instruction fetched when the stack holds fewer than
    two values, and a STORE fetched when the stack is empty, raise the
    stack-underflow failure; stack and environment are left as they were. *)
Theorem underflow_raises (vm : VM.t) :
  (arithmetic (VM.fetch vm) = true -> length (VM.stack vm) < 2 ->
   VM.step vm =
   (Raise (RuntimeError "Stack underflow: need two operands"),
    VM.set_pc (VM.pc vm + 1) vm)) /\
  (forall name, VM.fetch vm = STORE name -> VM.stack vm = [] ->
   VM.step vm =
   (Raise (RuntimeError "Stack underflow: need one operand"),
    VM.set_pc (VM.pc vm + 1) vm)).
Proof.
  split.
  - intros Hop Hlen. rewrite step_fetch.
    assert (Hpop := pop2_underflow (VM.set_pc (VM.pc vm + 1) vm) Hlen).
    destruct (VM.fetch vm); try discriminate Hop;
      unfold VM.dispatch, bind; rewrite Hpop; reflexivity.
  - intros name Hf Hs. rewrite step_fetch, Hf.
    unfold VM.dispatch, bind. rewrite pop1_underflow by exact Hs. reflexivity.
Qed.

Lemma underflow_raises_witness :
  VM.step (machine [MUL] [4%Z] ∅)
  = (Raise (RuntimeError "Stack underflow: need two operands"),
     VM.set_pc 1 (machine [MUL] [4%Z] ∅)) /\
  VM.step (machine [STORE "x"] [] ∅)
  = (Raise (RuntimeError "Stack underflow: need one operand"),
     VM.set_pc 1 (machine [STORE "x"] [] ∅)).
Proof.
  split.
  - apply (proj1 (underflow_raises (machine [MUL] [4%Z] ∅)));
      [reflexivity | simpl; lia].
  - apply (proj2 (underflow_raises (machine [STORE "x"] [] ∅)) "x");
      reflexivity.
Defined.

(** ** C10: the state at a division by zero *)

Lemma firstn_two_popped (s : list Z) (a b : Z) :
  firstn (length (s ++ [a; b]) - 2) (s ++ [a; b]) = s.
Proof.
  rewrite length_app. simpl.
  replace (length s + 2 - 2) with (length s + 0) by lia.
  rewrite firstn_app_2. simpl. apply app_nil_r.
Qed.

(** C10.  An iteration that raises the division-by-zero failure had fetched
    a DIV with at least two values on the stack; when it is raised both
    operands are gone from the stack, the environment is as before, and the
    machine is not in its state of before the instruction. *)
Theorem div_by_zero_state (vm vm' : VM.t) (msg : string) :
  VM.step vm = (Raise (ZeroDivisionError msg), vm') ->
  VM.fetch vm = DIV /\
  2 <= length (VM.stack vm) /\
  VM.stack vm' = firstn (length (VM.stack vm) - 2) (VM.stack vm) /\
  VM.env vm' = VM.env vm /\
  VM.pc vm' = VM.pc vm + 1 /\
  vm' <> vm.
Proof.
  rewrite step_fetch. intros Hstep.
  set (vm1 := VM.set_pc (VM.pc vm + 1) vm) in *.
  assert (Hpc : forall v : VM.t, VM.pc v = VM.pc vm + 1 -> v <> vm).
  { intros v Hv ->. lia. }
  destruct (VM.fetch vm) eqn:Hf; cbn in Hstep.
  - discriminate Hstep.
  - destruct (VM.env vm !! arg); discriminate Hstep.
  - unfold bind, VM.pop1, gets in Hstep. cbn in Hstep.
    destruct (VM.stack vm); discriminate Hstep.
  - destruct (short_or_two (VM.stack vm)) as [Hlen | (s & a & b & Hs)];
      unfold bind in Hstep.
    + rewrite (pop2_underflow vm1 Hlen) in Hstep. discriminate Hstep.
    + rewrite (pop2_ok vm1 s a b Hs) in Hstep. discriminate Hstep.
  - destruct (short_or_two (VM.stack vm)) as [Hlen | (s & a & b & Hs)];
      unfold bind in Hstep.
    + rewrite (pop2_underflow vm1 Hlen) in Hstep. discriminate Hstep.
    + rewrite (pop2_ok vm1 s a b Hs) in Hstep. discriminate Hstep.
  - destruct (short_or_two (VM.stack vm)) as [Hlen | (s & a & b & Hs)];
      unfold bind in Hstep.
    + rewrite (pop2_underflow vm1 Hlen) in Hstep. discriminate Hstep.
    + rewrite (pop2_ok vm1 s a b Hs) in Hstep. discriminate Hstep.
  - destruct (short_or_two (VM.stack vm)) as [Hlen | (s & a & b & Hs)];
      unfold bind in Hstep.
    + rewrite (pop2_underflow vm1 Hlen) in Hstep. discriminate Hstep.
    + rewrite (pop2_ok vm1 s a b Hs) in Hstep. cbn [fst snd] in Hstep.
      destruct (b =? 0)%Z; [|discriminate Hstep].
      injection Hstep as _ <-. cbn [VM.stack VM.env VM.pc VM.set_stack vm1 VM.set_pc].
      rewrite Hs, firstn_two_popped, length_app. simpl.
      repeat split; try reflexivity; try lia.
      apply Hpc. reflexivity.
  - discriminate Hstep.
Qed.

Lemma div_by_zero_state_witness :
  VM.stack (VM.set_stack [] (VM.set_pc 1 (machine [DIV] [5; 0]%Z ∅))) = []
  /\ VM.set_stack [] (VM.set_pc 1 (machine [DIV] [5; 0]%Z ∅))
     <> machine [DIV] [5; 0]%Z ∅.
Proof.
  destruct (div_by_zero_state (machine [DIV] [5; 0]%Z ∅)
              (VM.set_stack [] (VM.set_pc 1 (machine [DIV] [5; 0]%Z ∅)))
              "Division by zero" eq_refl)
    as (_ & _ & Hs & _ & _ & Hne).
  split; [exact Hs | exact Hne].
Defined.

(** ** The lexer on a split source *)

Lemma str_app_cons (x : ascii) (a b : string) :
  String x a +:+ b = String x (a +:+ b).
Proof. reflexivity. Qed.

Lemma str_app_nil_l (a : string) : "" +:+ a = a.
Proof. reflexivity. Qed.

Lemma str_app_assoc (a b c : string) : (a +:+ b) +:+ c = a +:+ (b +:+ c).
Proof.
  induction a as [|x a IH]; [reflexivity|].
  now rewrite !str_app_cons, IH.
Qed.

Lemma str_app_nil_r (a : string) : a +:+ "" = a.
Proof.
  induction a as [|x a IH]; [reflexivity|].
  now rewrite str_app_cons, IH.
Qed.

Lemma str_length_app (a b : string) :
  String.length (a +:+ b) = String.length a + String.length b.
Proof.
  induction a as [|x a IH]; [reflexivity|].
  rewrite str_app_cons. simpl. now rewrite IH.
Qed.

Lemma str_get_app (pre rest : string) :
  String.get (String.length pre) (pre +:+ rest) =
  match rest with
  | EmptyString => None
  | String c _ => Some c
  end.
Proof.
  induction pre as [|x pre IH].
  - rewrite str_app_nil_l. destruct rest; reflexivity.
  - rewrite str_app_cons. exact IH.
Qed.

Lemma str_substring_here (t rest : string) :
  String.substring 0 (String.length t) (t +:+ rest) = t.
Proof.
  induction t as [|x t IH].
  - rewrite str_app_nil_l. destruct rest; reflexivity.
  - rewrite str_app_cons. simpl. now rewrite IH.
Qed.

Lemma str_substring_app (pre t rest : string) :
  String.substring (String.length pre) (String.length t) (pre +:+ t +:+ rest) = t.
Proof.
  induction pre as [|x pre IH].
  - rewrite str_app_nil_l. apply str_substring_here.
  - rewrite str_app_cons. exact IH.
Qed.

Lemma at_app (pre t rest : string) :
  {| Lexer.src := pre +:+ t +:+ rest;
     Lexer.i := String.length pre + String.length t |}
  = at_ (pre +:+ t) rest.
Proof. unfold at_. now rewrite str_app_assoc, str_length_app. Qed.

Lemma peek_at (pre rest : string) : Lexer.peek (at_ pre rest) = Str.head rest.
Proof.
  unfold Lexer.peek, Lexer.n, at_. cbn [Lexer.src Lexer.i].
  rewrite str_get_app, str_length_app.
  destruct rest as [|c rest]; simpl.
  - replace (String.length pre <? String.length pre + 0) with false; [reflexivity|].
    symmetry. apply Nat.ltb_ge. lia.
  - replace (String.length pre <? String.length pre + S (String.length rest))
      with true; [reflexivity|].
    symmetry. apply Nat.ltb_lt. lia.
Qed.

Lemma advance_at (pre rest : string) (c : ascii) :
  Lexer.advance (at_ pre (String c rest)) = (c, at_ (pre +:+ Str.one c) rest).
Proof.
  unfold Lexer.advance. rewrite peek_at. cbn [Str.head]. f_equal.
  unfold at_. cbn [Lexer.src Lexer.i].
  rewrite str_app_assoc, str_length_app. reflexivity.
Qed.

Lemma advance_loop_run (p : ascii -> bool) (run rest : string) :
  Str.all p run = true -> p (Str.head rest) = false ->
  forall (fuel : nat) (pre : string),
    String.length run + String.length rest <= fuel ->
    Lexer.advance_loop p fuel (at_ pre (run +:+ rest)) = at_ (pre +:+ run) rest.
Proof.
  intros Hrun Hrest. induction run as [|c run IH]; intros fuel pre Hfuel.
  - rewrite str_app_nil_l, str_app_nil_r.
    destruct fuel as [|fuel]; cbn [Lexer.advance_loop]; [reflexivity|].
    now rewrite peek_at, Hrest.
  - cbn [Str.all] in Hrun. apply andb_prop in Hrun as [Hc Hrun].
    destruct fuel as [|fuel]; [simpl in Hfuel; lia|].
    cbn [Lexer.advance_loop]. rewrite str_app_cons.
    rewrite peek_at. cbn [Str.head]. rewrite Hc, advance_at. cbn [snd].
    rewrite (IH Hrun fuel) by (simpl in Hfuel; lia).
    now rewrite str_app_assoc.
Qed.

(** A loop of the lexer skips a run of characters of its class, up to the
    first character outside it or the end of the source. *)
Lemma advance_while_run (p : ascii -> bool) (pre run rest : string) :
  Str.all p run = true -> p (Str.head rest) = false ->
  Lexer.advance_while p (at_ pre (run +:+ rest)) = at_ (pre +:+ run) rest.
Proof.
  intros Hrun Hrest. unfold Lexer.advance_while.
  apply advance_loop_run; try assumption.
  unfold Lexer.n, at_. cbn [Lexer.src Lexer.i].
  rewrite !str_length_app. lia.
Qed.

Lemma consume_ws_at (pre ws rest : string) :
  Str.all Char.isspace ws = true -> Char.isspace (Str.head rest) = false ->
  Lexer.consume_ws (at_ pre (ws +:+ rest)) = at_ (pre +:+ ws) rest.
Proof. apply advance_while_run. Qed.

(** At the end of the source, behind any white space, the token is EOF. *)
Lemma next_token_eof (pre ws : string) :
  Str.all Char.isspace ws = true ->
  Lexer.next_token (at_ pre ws) =
  (Ret (mkToken Tok.EOF VNone (String.length (pre +:+ ws))), at_ (pre +:+ ws) "").
Proof.
  intros Hws. unfold Lexer.next_token.
  pose proof (consume_ws_at pre ws "" Hws eq_refl) as Hc.
  rewrite str_app_nil_r in Hc. rewrite Hc, peek_at. reflexivity.
Qed.

(** ** The parser, one call at a time *)

Lemma tok_eqb_eq (a b : Tok.kind) : Tok.eqb a b = true <-> a = b.
Proof. destruct a, b; simpl; split; congruence. Qed.

Lemma tok_eqb_refl (a : Tok.kind) : Tok.eqb a a = true.
Proof. now apply tok_eqb_eq. Qed.

Lemma match_hit (p : Parser.t) (typ : Tok.kind) (tok : Token) (lx : Lexer.t) :
  type (Parser.cur p) = typ ->
  Lexer.next_token (Parser.lexer p) = (Ret tok, lx) ->
  Parser.match_ typ p =
  (Ret true, {| Parser.lexer := lx; Parser.cur := tok; Parser.code := Parser.code p |}).
Proof.
  intros Ht Hn. unfold Parser.match_, bind, gets, Parser.lexer_next_token.
  rewrite Ht, tok_eqb_refl, Hn. reflexivity.
Qed.

Lemma match_miss (p : Parser.t) (typ : Tok.kind) :
  type (Parser.cur p) <> typ -> Parser.match_ typ p = (Ret false, p).
Proof.
  intros Ht. unfold Parser.match_, bind, gets.
  destruct (Tok.eqb (type (Parser.cur p)) typ) eqn:E; [|reflexivity].
  apply tok_eqb_eq in E. contradiction.
Qed.

Lemma code_block_loop_end (fuel : nat) (p : Parser.t) :
  Parser.block_end (type (Parser.cur p)) = true ->
  Parser.code_block_loop fuel p = (Ret tt, p).
Proof.
  intros He. destruct fuel; unfold Parser.code_block_loop, bind, gets;
    rewrite He; reflexivity.
Qed.

(** ** C9: the empty program *)

Lemma run_halt_only : VM.run (VM.init [HALT]) = (Ret tt, VM.set_pc 1 (VM.init [HALT])).
Proof. reflexivity. Qed.

Lemma compile_blank (src : string) :
  Str.all Char.isspace src = true -> compile src = Ret [HALT].
Proof.
  intros Hws. unfold compile, Parser.init, Lexer.init.
  change {| Lexer.src := src; Lexer.i := 0 |} with (at_ "" src).
  rewrite (next_token_eof "" src Hws), str_app_nil_l.
  unfold Parser.program, bind, gets. cbn [Parser.cur type Tok.eqb].
  unfold Parser.code_block. rewrite code_block_loop_end by reflexivity.
  unfold Parser.expect, bind.
  erewrite match_hit; [|reflexivity|apply (next_token_eof src "" eq_refl)].
  reflexivity.
Qed.

(** C9.  A source made of white space only, the empty source among them,
    compiles to the program [HALT] alone, and running that program returns
    with the stack and the environment empty. *)
Theorem blank_source_halts (src : string) :
  Str.all Char.isspace src = true ->
  compile src = Ret [HALT] /\
  exists vm : VM.t,
    compile_and_run src = Ret vm /\ VM.stack vm = [] /\ VM.env vm = ∅.
Proof.
  intros Hws. pose proof (compile_blank src Hws) as Hc.
  split; [exact Hc|].
  unfold compile_and_run. rewrite Hc, run_halt_only.
  eexists. split; [reflexivity|]. split; reflexivity.
Qed.

Lemma blank_source_halts_witness :
  compile "" = Ret [HALT] /\
  compile (String " " (String "009" (String "010" ""))) = Ret [HALT].
Proof.
  split.
  - exact (proj1 (blank_source_halts "" eq_refl)).
  - exact (proj1 (blank_source_halts
                    (String " " (String "009" (String "010" ""))) eq_refl)).
Defined.

(** ** C8: a definition and its use *)

(** C8.  ["10 def x   x 2 *"] compiles and runs to the end; afterwards the
    environment binds [x] to 10 and nothing else, and the stack is [[20]]. *)
Theorem def_then_use :
  exists vm : VM.t,
    compile_and_run "10 def x   x 2 *" = Ret vm /\
    VM.env vm = {[ "x" := 10%Z ]} /\
    VM.stack vm = [20%Z].
Proof.
  eexists. split; [vm_compute; reflexivity|]. split; reflexivity.
Qed.

(** ** C7: characters outside the lexical surface *)

(** Counterexample to C7 as stated.  The character NUL is neither white
    space, nor alphabetic, nor an underscore, nor a digit, nor an operator;
    in a source it is a character like any other, yet the lexer answers EOF
    at it, not ERROR, and stays where it is. *)
Lemma nul_char_is_eof :
  Char.isspace Char.NUL = false /\
  Char.isalpha Char.NUL = false /\
  Char.NUL <> "_"%char /\
  Char.isdigit Char.NUL = false /\
  operator_char Char.NUL = false /\
  Lexer.next_token (Lexer.init (String Char.NUL "+"))
  = (Ret (mkToken Tok.EOF VNone 0), Lexer.init (String Char.NUL "+")) /\
  fst (Lexer.next_token (Lexer.init (String Char.NUL "+")))
  <> Ret (mkToken Tok.ERROR (VStr (Str.one Char.NUL)) 0).
Proof. repeat split; try reflexivity; discriminate. Qed.

(** A superscript digit is a digit for [str.isdigit] and none for [int]:
    the lexer raises on it. *)
Lemma superscript_digit_raises :
  Char.isdigit "178"%char = true /\
  Char.isdecimal "178"%char = false /\
  Lexer.next_token (Lexer.init (Str.one "178"%char))
  = (Raise (ValueError (Str.one "178"%char)),
     {| Lexer.src := Str.one "178"%char; Lexer.i := 1 |}).
Proof. repeat split; reflexivity. Qed.

(** Behind any white space, a character other than the end marker that is
    neither white space, nor alphabetic, nor an underscore, nor a digit, nor
    one of [+ - * /] gives an ERROR token that carries the character and the
    position of the character; nothing is raised and the cursor moves behind
    the character. *)
Theorem other_char_is_error (pre ws rest : string) (c : ascii) :
  Str.all Char.isspace ws = true ->
  Char.isspace c = false ->
  c <> Char.NUL ->
  Char.isalpha c = false ->
  c <> "_"%char ->
  Char.isdigit c = false ->
  operator_char c = false ->
  Lexer.next_token (at_ pre (ws +:+ String c rest)) =
  (Ret (mkToken Tok.ERROR (VStr (Str.one c)) (String.length (pre +:+ ws))),
   at_ ((pre +:+ ws) +:+ Str.one c) rest).
Proof.
  intros Hws Hsp Hnul Hal Hun Hdi Hop.
  unfold Lexer.next_token.
  rewrite consume_ws_at by assumption.
  rewrite peek_at. cbn [Str.head].
  apply Ascii.eqb_neq in Hnul, Hun. rewrite Hnul, Hal, Hun, Hdi.
  cbn [orb]. rewrite advance_at.
  unfold operator_char in Hop.
  destruct (Ascii.eqb c "+"); [discriminate Hop|].
  destruct (Ascii.eqb c "-"); [discriminate Hop|].
  destruct (Ascii.eqb c "*"); [discriminate Hop|].
  destruct (Ascii.eqb c "/"); [discriminate Hop|].
  reflexivity.
Qed.

Lemma other_char_is_error_witness :
  Lexer.next_token (at_ "1" ("  " +:+ String "$" "2")) =
  (Ret (mkToken Tok.ERROR (VStr "$") 3), at_ "1  $" "2").
Proof.
  apply (other_char_is_error "1" "  " "2" "$");
    (reflexivity || discriminate).
Defined.

(** At the end marker, behind any white space and wherever it stands in the
    source, the token is EOF and the cursor stays before the marker. *)
Lemma next_token_nul_at (pre ws rest : string) :
  Str.all Char.isspace ws = true ->
  Lexer.next_token (at_ pre (ws +:+ String Char.NUL rest)) =
  (Ret (mkToken Tok.EOF VNone (String.length (pre +:+ ws))),
   at_ (pre +:+ ws) (String Char.NUL rest)).
Proof.
  intros Hws. unfold Lexer.next_token. cbv zeta.
  rewrite consume_ws_at by (assumption || reflexivity).
  rewrite peek_at. reflexivity.
Qed.

(** C7, amended.  At every position of every source, behind any white
    space, a character that is neither white space, nor alphabetic, nor an
    underscore, nor a digit, nor one of [+ - * /]: when it is not the end
    marker, [next_token] returns an ERROR token that carries the character
    and its position, and the cursor moves behind the character; when it is
    the end marker, [next_token] returns the EOF token with the position of
    the marker and the cursor stays before the marker.  Nothing is raised
    in either case. *)
Theorem other_char_error_or_nul_eof (pre ws rest : string) (c : ascii) :
  Str.all Char.isspace ws = true ->
  Char.isspace c = false ->
  Char.isalpha c = false ->
  c <> "_"%char ->
  Char.isdigit c = false ->
  operator_char c = false ->
  Lexer.next_token (at_ pre (ws +:+ String c rest)) =
  if Ascii.eqb c Char.NUL
  then (Ret (mkToken Tok.EOF VNone (String.length (pre +:+ ws))),
        at_ (pre +:+ ws) (String c rest))
  else (Ret (mkToken Tok.ERROR (VStr (Str.one c)) (String.length (pre +:+ ws))),
        at_ ((pre +:+ ws) +:+ Str.one c) rest).
Proof.
  intros Hws Hsp Hal Hun Hdi Hop.
  destruct (Ascii.eqb_spec c Char.NUL) as [-> | Hnul].
  - now apply next_token_nul_at.
  - now apply other_char_is_error.
Qed.

Lemma other_char_error_or_nul_eof_witness :
  Lexer.next_token (at_ "1" ("  " +:+ String "$" "2")) =
  (Ret (mkToken Tok.ERROR (VStr "$") 3), at_ "1  $" "2") /\
  Lexer.next_token (at_ "1 2 +" (" " +:+ String Char.NUL " 3")) =
  (Ret (mkToken Tok.EOF VNone 6), at_ "1 2 + " (String Char.NUL " 3")).
Proof.
  split.
  - apply (other_char_error_or_nul_eof "1" "  " "2" "$");
      (reflexivity || discriminate).
  - apply (other_char_error_or_nul_eof "1 2 +" " " " 3" Char.NUL);
      (reflexivity || discriminate).
Defined.

(** ** C2: the terminal HALT *)

Lemma bind_ret_inv {S A B} (m : M S A) (k : A -> M S B) (s s' : S) (b : B) :
  bind m k s = (Ret b, s') ->
  exists a s1, m s = (Ret a, s1) /\ k a s1 = (Ret b, s').
Proof.
  unfold bind. destruct (m s) as [[a| |] s1]; intros H; try discriminate H.
  now exists a, s1.
Qed.

Lemma appends_bind {A B} (m : M Parser.t A) (k : A -> M Parser.t B) ok :
  appends m ok -> (forall a, appends (k a) ok) -> appends (bind m k) ok.
Proof.
  intros Hm Hk p b p' Hb.
  apply bind_ret_inv in Hb as (a & p1 & H1 & H2).
  apply Hm in H1 as (o1 & E1 & F1). apply Hk in H2 as (o2 & E2 & F2).
  exists (o1 ++ o2). rewrite E2, E1, <- app_assoc, forallb_app, F1, F2. now split.
Qed.

Lemma appends_nothing {A} (m : M Parser.t A) ok :
  (forall p a p', m p = (Ret a, p') -> Parser.code p' = Parser.code p) ->
  appends m ok.
Proof.
  intros H p a p' Hm. exists []. rewrite app_nil_r. split; [eauto | reflexivity].
Qed.

Lemma appends_match (typ : Tok.kind) ok : appends (Parser.match_ typ) ok.
Proof.
  apply appends_nothing. intros p a p'.
  unfold Parser.match_, bind, gets, Parser.lexer_next_token, modify, ret.
  destruct (Tok.eqb _ _).
  - destruct (Lexer.next_token (Parser.lexer p)) as [[tok| |] lx];
      intros H; inversion H; reflexivity.
  - intros H; inversion H; reflexivity.
Qed.

Lemma appends_expect (typ : Tok.kind) ok : appends (Parser.expect typ) ok.
Proof.
  apply appends_bind; [apply appends_match|].
  intros [|]; apply appends_nothing; intros p a p' H; inversion H; reflexivity.
Qed.

Lemma appends_emit (ins : instr) (ok : instr -> bool) :
  ok ins = true -> appends (Parser.emit ins) ok.
Proof.
  intros Hok p a p' H. inversion H. exists [ins]. simpl. now rewrite Hok.
Qed.

Lemma appends_gets {A} (f : Parser.t -> A) ok : appends (gets f) ok.
Proof. apply appends_nothing. intros p a p' H. inversion H. reflexivity. Qed.

Lemma appends_error {A} (msg : string) ok : appends (@Parser.error A msg) ok.
Proof. intros p a p' H. discriminate H. Qed.

Lemma appends_ret {A} (a : A) ok : appends (ret a) ok.
Proof. apply appends_nothing. intros p x p' H. inversion H. reflexivity. Qed.

Create HintDb parser discriminated.
#[local] Hint Resolve appends_match appends_expect appends_emit appends_gets
  appends_error appends_ret : parser.

Lemma appends_expression : appends Parser.expression not_halt.
Proof.
  unfold Parser.expression.
  apply appends_bind; [auto with parser|]. intros c.
  destruct (type c); auto with parser;
    repeat (apply appends_bind; [auto with parser|]; intros ?);
    auto with parser.
  destruct (negb _); auto with parser.
  apply appends_bind; auto with parser.
Qed.

Lemma appends_code_block_loop (fuel : nat) :
  appends (Parser.code_block_loop fuel) not_halt.
Proof.
  induction fuel as [|fuel IH]; cbn [Parser.code_block_loop];
    (apply appends_bind; [auto with parser|]); intros c;
    destruct (Parser.block_end (type c)); auto with parser.
  - intros p a p' H. discriminate H.
  - apply appends_bind; [apply appends_expression | intros _; exact IH].
Qed.

Lemma appends_code_block : appends Parser.code_block not_halt.
Proof. intros p a p'. unfold Parser.code_block. apply appends_code_block_loop. Qed.

(** The program the parser returns is what the grammar emitted, none of it
    HALT, and one HALT behind it. *)
Lemma program_shape (p : Parser.t) (code : list instr) (p' : Parser.t) :
  Parser.program p = (Ret code, p') ->
  exists body,
    code = Parser.code p ++ body ++ [HALT] /\ forallb not_halt body = true.
Proof.
  unfold Parser.program. intros H.
  apply bind_ret_inv in H as (c & p0 & H0 & H). inversion H0; subst c p0; clear H0.
  apply bind_ret_inv in H as ([] & p1 & H1 & H).
  apply bind_ret_inv in H as ([] & p2 & H2 & H).
  apply bind_ret_inv in H as ([] & p3 & H3 & H).
  inversion H; subst code p'; clear H. inversion H3; subst p3; clear H3.
  apply (appends_expect Tok.EOF not_halt) in H2 as (o2 & E2 & F2).
  assert (Hblock : exists out, Parser.code p1 = Parser.code p ++ out
                               /\ forallb not_halt out = true).
  { revert H1. destruct (Tok.eqb _ _).
    - apply (appends_bind _ _ not_halt); [auto with parser|]. intros _.
      apply appends_bind; [apply appends_code_block | auto with parser].
    - apply appends_code_block. }
  destruct Hblock as (o1 & E1 & F1).
  exists (o1 ++ o2). cbn [Parser.code]. rewrite E2, E1, forallb_app, F1, F2.
  now rewrite <- !app_assoc.
Qed.

Lemma count_halt_body (body : list instr) :
  forallb not_halt body = true -> List.filter is_halt body = [].
Proof.
  induction body as [|x body IH]; [reflexivity|]. simpl.
  intros H. apply andb_prop in H as [Hx Hb].
  unfold not_halt in Hx. apply negb_true_iff in Hx. rewrite Hx. auto.
Qed.

(** C2.  The program of a source that parses ends with HALT, holds exactly
    one HALT, and holds it nowhere but in the last position. *)
Theorem program_ends_in_one_halt (src : string) (code : list instr) :
  compile src = Ret code ->
  List.last code ADD = HALT /\
  count_halt code = 1 /\
  (forall k, nth_error code k = Some HALT -> k = length code - 1).
Proof.
  unfold compile, Parser.init. intros H.
  destruct (Lexer.next_token (Lexer.init src)) as [[tok| |] lx]; try discriminate H.
  destruct (Parser.program _) as [r p'] eqn:Hp. cbn [fst] in H. subst r.
  apply program_shape in Hp as (body & -> & Hbody). cbn [Parser.code app].
  split; [apply last_last|]. split.
  - unfold count_halt. rewrite List.filter_app, count_halt_body by assumption. reflexivity.
  - intros k Hk. rewrite length_app. simpl.
    destruct (Nat.lt_ge_cases k (length body)) as [Hlt | Hge].
    + rewrite nth_error_app1 in Hk by assumption.
      apply nth_error_In in Hk.
      rewrite forallb_forall in Hbody. apply Hbody in Hk. discriminate Hk.
    + assert (k < length (body ++ [HALT])).
      { apply nth_error_Some. congruence. }
      rewrite length_app in *. simpl in *. lia.
Qed.

Lemma program_ends_in_one_halt_witness :
  List.last [PUSH 2; PUSH 2; ADD; PUSH 5; MUL; HALT] ADD = HALT /\
  count_halt [PUSH 2; PUSH 2; ADD; PUSH 5; MUL; HALT] = 1.
Proof.
  destruct (program_ends_in_one_halt "2 2 + 5 *"
              [PUSH 2; PUSH 2; ADD; PUSH 5; MUL; HALT] eq_refl) as (H1 & H2 & _).
  split; [exact H1 | exact H2].
Defined.

(** ** C3: straight-line runs *)

(** An iteration leaves the program alone and moves [pc] by one, whatever
    its outcome. *)
Lemma step_code_pc (vm : VM.t) :
  VM.code (snd (VM.step vm)) = VM.code vm /\
  VM.pc (snd (VM.step vm)) = VM.pc vm + 1.
Proof.
  rewrite step_fetch. set (vm1 := VM.set_pc (VM.pc vm + 1) vm).
  assert (H2 : VM.code (snd (VM.pop2 vm1)) = VM.code vm /\
               VM.pc (snd (VM.pop2 vm1)) = VM.pc vm + 1).
  { destruct (short_or_two (VM.stack vm)) as [Hlen | (s & a & b & Hs)].
    - rewrite (pop2_underflow vm1 Hlen). now split.
    - rewrite (pop2_ok vm1 s a b Hs). now split. }
  destruct (VM.fetch vm); unfold VM.dispatch, bind; try (now split).
  - unfold gets. destruct (VM.env vm1 !! arg); now split.
  - unfold VM.pop1, gets, bind. destruct (VM.stack vm1); now split.
  - destruct (VM.pop2 vm1) as [[[a b]| |] v]; exact H2.
  - destruct (VM.pop2 vm1) as [[[a b]| |] v]; exact H2.
  - destruct (VM.pop2 vm1) as [[[a b]| |] v]; exact H2.
  - destruct (VM.pop2 vm1) as [[[a b]| |] v]; [|exact H2..].
    cbn [fst snd]. destruct (b =? 0)%Z; exact H2.
Qed.

Lemma step_no_timeout (vm : VM.t) : fst (VM.step vm) <> Timeout.
Proof.
  rewrite step_fetch. set (vm1 := VM.set_pc (VM.pc vm + 1) vm).
  assert (H2 : fst (VM.pop2 vm1) <> Timeout).
  { destruct (short_or_two (VM.stack vm)) as [Hlen | (s & a & b & Hs)].
    - now rewrite (pop2_underflow vm1 Hlen).
    - now rewrite (pop2_ok vm1 s a b Hs). }
  destruct (VM.fetch vm); unfold VM.dispatch, bind; try discriminate.
  - unfold gets. destruct (VM.env vm1 !! arg); discriminate.
  - unfold VM.pop1, gets, bind. destruct (VM.stack vm1); discriminate.
  - destruct (VM.pop2 vm1) as [[[a b]| |] v]; try discriminate. now elim H2.
  - destruct (VM.pop2 vm1) as [[[a b]| |] v]; try discriminate. now elim H2.
  - destruct (VM.pop2 vm1) as [[[a b]| |] v]; try discriminate. now elim H2.
  - destruct (VM.pop2 vm1) as [[[a b]| |] v]; try discriminate; [|now elim H2].
    cbn [fst snd]. destruct (b =? 0)%Z; discriminate.
Qed.

(** The loop ends within [len(code) - pc] iterations, whatever the program:
    it returns or it raises. *)
Lemma run_loop_no_timeout (fuel : nat) (vm : VM.t) :
  length (VM.code vm) - VM.pc vm <= fuel ->
  fst (VM.run_loop fuel vm) <> Timeout.
Proof.
  revert vm. induction fuel as [|fuel IH]; intros vm Hfuel;
    cbn [VM.run_loop]; destruct (VM.pc vm <? length (VM.code vm)) eqn:Hpc;
    try discriminate.
  - apply Nat.ltb_lt in Hpc. lia.
  - apply Nat.ltb_lt in Hpc. unfold bind.
    pose proof (step_no_timeout vm) as Hnt.
    destruct (step_code_pc vm) as [Hcode Hpc'].
    destruct (VM.step vm) as [[[|]| |] vm']; cbn [fst snd] in *;
      try discriminate; [|now elim Hnt].
    apply IH. rewrite Hcode, Hpc'. lia.
Qed.

Lemma run_no_timeout (vm : VM.t) : fst (VM.run vm) <> Timeout.
Proof. apply run_loop_no_timeout. lia. Qed.

Lemma fetch_at (vm : VM.t) (done rest : list instr) (ins : instr) :
  VM.code vm = done ++ ins :: rest -> VM.pc vm = length done ->
  VM.fetch vm = ins /\ VM.pc vm < length (VM.code vm).
Proof.
  intros Hc Hp. unfold VM.fetch. rewrite Hc, Hp, nth_middle, length_app.
  simpl. split; [reflexivity | lia].
Qed.

Lemma run_loop_next (fuel : nat) (vm vm' : VM.t) :
  VM.pc vm < length (VM.code vm) ->
  VM.step vm = (Ret false, vm') ->
  VM.run_loop (S fuel) vm = VM.run_loop fuel vm' /\
  iterations (S fuel) vm = S (iterations fuel vm').
Proof.
  intros Hpc Hstep. apply Nat.ltb_lt in Hpc.
  cbn [VM.run_loop iterations]. unfold bind. now rewrite Hpc, Hstep.
Qed.

Lemma run_loop_last (fuel : nat) (vm vm' : VM.t) (r : result bool) :
  VM.pc vm < length (VM.code vm) ->
  VM.step vm = (r, vm') ->
  r <> Ret false ->
  VM.run_loop (S fuel) vm =
  (match r with Ret _ => Ret tt | Raise e => Raise e | Timeout => Timeout end,
   vm') /\
  iterations (S fuel) vm = 1.
Proof.
  intros Hpc Hstep Hr. apply Nat.ltb_lt in Hpc.
  cbn [VM.run_loop iterations]. unfold bind. rewrite Hpc, Hstep.
  destruct r as [[|]| |]; now split.
Qed.









(** ** C1: postfix expressions *)

(** *** Characters *)

Ltac each_char c :=
  destruct c as [[] [] [] [] [] [] [] []]; vm_compute; intros;
  try discriminate; repeat split; reflexivity.

Lemma decimal_char (c : ascii) :
  Char.isdecimal c = true ->
  Char.isspace c = false /\ Ascii.eqb c Char.NUL = false /\
  Char.isalpha c = false /\ Ascii.eqb c "_" = false /\ Char.isdigit c = true.
Proof. each_char c. Qed.

Lemma space_char (c : ascii) :
  Char.isspace c = true -> Char.isdigit c = false.
Proof. each_char c. Qed.

Lemma symbol_char (op : binop) :
  Char.isspace (symbol op) = false /\ Char.isdigit (symbol op) = false.
Proof. destruct op; split; reflexivity. Qed.

Lemma head_of_blank (s : string) :
  Str.all Char.isspace s = true -> Char.isdigit (Str.head s) = false.
Proof.
  destruct s as [|c s]; [reflexivity|]. cbn [Str.all Str.head].
  intros H. apply andb_prop in H as [H _]. now apply space_char.
Qed.

(** *** Literals *)

Lemma int_digits_decimal (digits : string) :
  Str.all Char.isdecimal digits = true ->
  forall acc : Z,
    int_digits acc digits
    = Some (acc * 10 ^ Z.of_nat (String.length digits) + decimal digits)%Z.
Proof.
  induction digits as [|c r IH]; intros Hall acc.
  - simpl. f_equal. lia.
  - cbn [Str.all] in Hall. apply andb_prop in Hall as [Hc Hr].
    cbn [int_digits decimal String.length]. rewrite Hc, (IH Hr).
    f_equal. rewrite Nat2Z.inj_succ, Z.pow_succ_r by lia. ring.
Qed.

Lemma int_literal (digits : string) :
  lexeme_ok (LNum digits) = true -> int digits = Some (decimal digits).
Proof.
  cbn [lexeme_ok]. intros H. apply andb_prop in H as [H Hlim].
  apply andb_prop in H as [Hne Hall].
  destruct digits as [|c r]; [discriminate Hne|].
  unfold int. unfold within_limit in Hlim. apply N.leb_le in Hlim.
  replace (MAX_STR_DIGITS <? N.of_nat (String.length (String c r)))%N with false
    by (symmetry; now apply N.ltb_ge).
  now rewrite (int_digits_decimal _ Hall).
Qed.

(** *** Lexing a lexeme *)

Lemma all_weaken (p q : ascii -> bool) (s : string) :
  (forall c, p c = true -> q c = true) ->
  Str.all p s = true -> Str.all q s = true.
Proof.
  intros Hpq. induction s as [|c s IH]; [reflexivity|]. cbn [Str.all].
  intros H. apply andb_prop in H as [Hc Hs]. now rewrite (Hpq c Hc), IH.
Qed.

Lemma digits_are_isdigit (s : string) :
  Str.all Char.isdecimal s = true -> Str.all Char.isdigit s = true.
Proof. apply all_weaken. intros c Hc. now apply decimal_char in Hc. Qed.

(** [self.src[start:self.i]] behind a run that began at [start]. *)
Lemma slice_at (pre run rest : string) :
  String.substring (Lexer.i (at_ pre (run +:+ rest)))
    (Lexer.i (at_ (pre +:+ run) rest) - Lexer.i (at_ pre (run +:+ rest)))
    (Lexer.src (at_ (pre +:+ run) rest))
  = run.
Proof.
  unfold at_. cbn [Lexer.i Lexer.src].
  replace (String.length (pre +:+ run) - String.length pre)
    with (String.length run) by (rewrite str_length_app; lia).
  rewrite str_app_assoc. apply str_substring_app.
Qed.

Lemma next_token_number (pre gap digits rest : string) :
  Str.all Char.isspace gap = true ->
  lexeme_ok (LNum digits) = true ->
  Char.isdigit (Str.head rest) = false ->
  Lexer.next_token (at_ pre (gap +:+ digits +:+ rest)) =
  (Ret (mkToken Tok.NUMBER (VInt (decimal digits)) (String.length (pre +:+ gap))),
   at_ ((pre +:+ gap) +:+ digits) rest).
Proof.
  intros Hgap Hok Hrest. pose proof (int_literal digits Hok) as Hint.
  cbn [lexeme_ok] in Hok. apply andb_prop in Hok as [Hok _].
  apply andb_prop in Hok as [Hne Hall].
  destruct digits as [|c r]; [discriminate Hne|].
  pose proof Hall as Hall'. cbn [Str.all] in Hall'.
  apply andb_prop in Hall' as [Hc _].
  destruct (decimal_char c Hc) as (Hsp & Hnul & Hal & Hun & Hdi).
  unfold Lexer.next_token. cbv zeta.
  rewrite consume_ws_at by (rewrite ?str_app_cons; assumption).
  rewrite peek_at, str_app_cons. cbn [Str.head].
  rewrite Hnul, Hal, Hun, Hdi. cbn [orb].
  rewrite <- str_app_cons.
  rewrite advance_while_run by (auto using digits_are_isdigit).
  rewrite slice_at, Hint. reflexivity.
Qed.

Lemma next_token_operator (pre gap rest : string) (op : binop) :
  Str.all Char.isspace gap = true ->
  Lexer.next_token (at_ pre (gap +:+ Str.one (symbol op) +:+ rest)) =
  (Ret (token_of (LOp op) (String.length (pre +:+ gap))),
   at_ ((pre +:+ gap) +:+ Str.one (symbol op)) rest).
Proof.
  intros Hgap. unfold Lexer.next_token. cbv zeta. unfold Str.one.
  rewrite str_app_cons, str_app_nil_l.
  rewrite consume_ws_at by (assumption || apply symbol_char).
  rewrite peek_at, advance_at. cbn [Str.head].
  destruct op; reflexivity.
Qed.

Lemma next_token_lexeme (pre gap rest : string) (x : lexeme) :
  Str.all Char.isspace gap = true ->
  lexeme_ok x = true ->
  (is_num x = true -> Char.isdigit (Str.head rest) = false) ->
  Lexer.next_token (at_ pre (gap +:+ text x +:+ rest)) =
  (Ret (token_of x (String.length (pre +:+ gap))),
   at_ ((pre +:+ gap) +:+ text x) rest).
Proof.
  intros Hgap Hok Hrest. destruct x as [digits | op].
  - apply next_token_number; auto.
  - now apply next_token_operator.
Qed.

(** Behind a literal, the source goes on with a character that is not a
    digit, or ends. *)
Lemma spell_head (pieces : list (string * lexeme)) (tail : string) :
  spaced true pieces = true -> Str.all Char.isspace tail = true ->
  Char.isdigit (Str.head (spell pieces tail)) = false.
Proof.
  destruct pieces as [|[gap x] rest]; cbn [spaced spell].
  - intros _. apply head_of_blank.
  - intros H _. repeat (apply andb_prop in H as [H ?]).
    destruct gap as [|c gap].
    + destruct x as [digits | op]; [discriminate|].
      rewrite str_app_nil_l. cbn [text]. unfold Str.one.
      rewrite str_app_cons. apply symbol_char.
    + rewrite str_app_cons. cbn [Str.head].
      cbn [Str.all] in H. apply andb_prop in H as [H _]. now apply space_char.
Qed.

(** The next token of a spelt sequence: of its first lexeme, or EOF. *)
Lemma next_token_spell (pre tail gap : string) (x : lexeme)
    (rest : list (string * lexeme)) (after_num : bool) :
  spaced after_num ((gap, x) :: rest) = true ->
  Str.all Char.isspace tail = true ->
  Lexer.next_token (at_ pre (spell ((gap, x) :: rest) tail)) =
  (Ret (token_of x (String.length (pre +:+ gap))),
   at_ ((pre +:+ gap) +:+ text x) (spell rest tail)).
Proof.
  cbn [spaced spell]. intros H Htail.
  apply andb_prop in H as [H Hrest].
  apply andb_prop in H as [H _]. apply andb_prop in H as [Hgap Hok].
  apply next_token_lexeme; try assumption.
  intros Hnum. rewrite Hnum in Hrest. now apply spell_head.
Qed.

(** *** Parsing a lexeme sequence *)

Lemma token_of_type (x : lexeme) (pos : nat) :
  Parser.block_end (type (token_of x pos)) = false /\
  Tok.eqb (type (token_of x pos)) Tok.MAIN = false.
Proof. destruct x as [digits | []]; split; reflexivity. Qed.

Lemma expression_lexeme (p : Parser.t) (x : lexeme) (pos : nat)
    (tok : Token) (lx : Lexer.t) :
  Parser.cur p = token_of x pos ->
  Lexer.next_token (Parser.lexer p) = (Ret tok, lx) ->
  Parser.expression p =
  (Ret tt, {| Parser.lexer := lx; Parser.cur := tok;
              Parser.code := Parser.code p ++ [instr_of x] |}).
Proof.
  intros Hcur Hnext. unfold Parser.expression, bind, gets. rewrite Hcur.
  destruct x as [digits | []]; cbn [token_of type val];
    (erewrite match_hit; [reflexivity | now rewrite Hcur | exact Hnext]).
Qed.

Lemma parse_pieces (tail : string) (rest : list (string * lexeme)) :
  Str.all Char.isspace tail = true ->
  forall (pre : string) (x : lexeme) (pos : nat) (c : list instr) (fuel : nat),
    spaced (is_num x) rest = true ->
    length rest < fuel ->
    exists (pre' : string) (pos' : nat),
      Parser.code_block_loop fuel
        {| Parser.lexer := at_ pre (spell rest tail);
           Parser.cur := token_of x pos;
           Parser.code := c |}
      = (Ret tt,
         {| Parser.lexer := at_ pre' "";
            Parser.cur := mkToken Tok.EOF VNone pos';
            Parser.code := c ++ instr_of x :: map (fun p => instr_of (snd p)) rest |}).
Proof.
  intros Htail.
  induction rest as [|[gap y] rest IH]; intros pre x pos c fuel Hsp Hfuel;
    (destruct fuel as [|fuel]; [simpl in Hfuel; lia|]);
    cbn [Parser.code_block_loop]; unfold bind at 1, gets at 1;
    cbn [Parser.cur]; rewrite (proj1 (token_of_type x pos)); unfold bind at 1.
  - erewrite expression_lexeme;
      [|reflexivity|cbn [Parser.lexer spell]; apply (next_token_eof pre tail Htail)].
    rewrite code_block_loop_end by reflexivity.
    now exists (pre +:+ tail), (String.length (pre +:+ tail)).
  - erewrite expression_lexeme;
      [|reflexivity|cbn [Parser.lexer]; apply (next_token_spell _ _ _ _ _ _ Hsp Htail)].
    cbn [Parser.code].
    assert (Hsp' : spaced (is_num y) rest = true).
    { cbn [spaced] in Hsp. now apply andb_prop in Hsp as [_ Hsp]. }
    destruct (IH ((pre +:+ gap) +:+ text y) y (String.length (pre +:+ gap))
                (c ++ [instr_of x]) fuel Hsp' ltac:(simpl in Hfuel; lia))
      as (pre' & pos' & ->).
    exists pre', pos'. cbn [map snd]. now rewrite <- app_assoc.
Qed.

Lemma spell_length (tail : string) (pieces : list (string * lexeme)) :
  forall after_num : bool,
    spaced after_num pieces = true ->
    length pieces <= String.length (spell pieces tail).
Proof.
  induction pieces as [|[gap x] rest IH]; intros b H; [simpl; lia|].
  cbn [spaced] in H. apply andb_prop in H as [H Hrest].
  apply andb_prop in H as [H _]. apply andb_prop in H as [_ Hok].
  cbn [spell length]. rewrite !str_length_app.
  specialize (IH _ Hrest).
  assert (1 <= String.length (text x)).
  { destruct x as [[|c r] | op]; [discriminate Hok | simpl; lia | simpl; lia]. }
  lia.
Qed.

(** The bytecode of a spelt lexeme sequence: one instruction per lexeme,
    and HALT. *)
Lemma compile_spell (pieces : list (string * lexeme)) (tail : string) :
  spaced false pieces = true ->
  Str.all Char.isspace tail = true ->
  compile (spell pieces tail)
  = Ret (map (fun p => instr_of (snd p)) pieces ++ [HALT]).
Proof.
  intros Hsp Htail. destruct pieces as [|[gap x] rest].
  - now apply compile_blank.
  - unfold compile, Parser.init, Lexer.init.
    change {| Lexer.src := spell ((gap, x) :: rest) tail; Lexer.i := 0 |}
      with (at_ "" (spell ((gap, x) :: rest) tail)).
    rewrite (next_token_spell _ _ _ _ _ _ Hsp Htail).
    assert (Hsp' : spaced (is_num x) rest = true).
    { cbn [spaced] in Hsp. now apply andb_prop in Hsp as [_ Hsp]. }
    set (pre := ("" +:+ gap) +:+ text x).
    unfold Parser.program, bind at 1, gets at 1. cbn [Parser.cur].
    rewrite (proj2 (token_of_type x _)). unfold bind at 1.
    unfold Parser.code_block. cbn [Parser.lexer].
    destruct (parse_pieces tail rest Htail pre x (String.length ("" +:+ gap)) []
                (Lexer.n (at_ pre (spell rest tail))
                 - Lexer.i (at_ pre (spell rest tail)) + 1) Hsp')
      as (pre' & pos' & ->).
    { pose proof (spell_length tail rest _ Hsp').
      unfold Lexer.n, at_. cbn [Lexer.src Lexer.i]. rewrite str_length_app. lia. }
    unfold bind at 1, Parser.expect, bind at 1.
    erewrite match_hit; [|reflexivity|apply (next_token_eof pre' "" eq_refl)].
    reflexivity.
Qed.

(** *** Running the bytecode of a lexeme sequence *)

Lemma run_lexemes (toks : list lexeme) :
  forall (done : list instr) (st st' : list Z) (vm : VM.t) (fuel : nat),
    VM.code vm = done ++ map instr_of toks ++ [HALT] ->
    VM.pc vm = length done ->
    VM.stack vm = rev st ->
    rpn toks st = Some st' ->
    length toks < fuel ->
    exists vm' : VM.t,
      VM.run_loop fuel vm = (Ret tt, vm') /\
      VM.stack vm' = rev st' /\ VM.env vm' = VM.env vm.
Proof.
  induction toks as [|x toks IH]; intros done st st' vm fuel Hc Hp Hs Hr Hf;
    (destruct fuel as [|fuel]; [simpl in Hf; lia|]);
    cbn [map app] in Hc;
    destruct (fetch_at vm done _ _ Hc Hp) as [Hfetch Hpc];
    pose proof (step_fetch vm) as Hstep; rewrite Hfetch in Hstep.
  - destruct (run_loop_last fuel vm _ _ Hpc Hstep) as [-> _]; [discriminate|].
    injection Hr as <-. eexists. split; [reflexivity|]. now split.
  - assert (Hgo : forall s st1,
      VM.step vm = (Ret false, after_fetch s vm) ->
      s = rev st1 -> rpn toks st1 = Some st' ->
      exists vm' : VM.t,
        VM.run_loop (S fuel) vm = (Ret tt, vm') /\
        VM.stack vm' = rev st' /\ VM.env vm' = VM.env vm).
    { intros s st1 Hs1 Hrev Hr1.
      destruct (run_loop_next fuel vm _ Hpc Hs1) as [-> _].
      apply (IH (done ++ [instr_of x]) st1 st' (after_fetch s vm) fuel);
        try assumption.
      - cbn. now rewrite Hc, <- app_assoc.
      - cbn. rewrite length_app. simpl. lia.
      - simpl in Hf. lia. }
    set (vm1 := VM.set_pc (VM.pc vm + 1) vm) in *.
    destruct x as [digits | op]; cbn [rpn] in Hr.
    + apply (Hgo (VM.stack vm ++ [decimal digits]) (decimal digits :: st));
        [exact Hstep | now rewrite Hs | exact Hr].
    + destruct st as [|b [|a st0]]; try discriminate Hr.
      destruct (apply_op op a b) as [c|] eqn:Hop; [|discriminate Hr].
      assert (Hst : VM.stack vm1 = rev st0 ++ [a; b]).
      { cbn. rewrite Hs. cbn [rev]. now rewrite <- app_assoc. }
      apply (Hgo (rev st0 ++ [c]) (c :: st0)); [|reflexivity|exact Hr].
      rewrite Hstep.
      destruct op; cbn [instr_of apply_op] in *; unfold VM.dispatch, bind;
        rewrite (pop2_ok vm1 _ a b Hst); cbn [fst snd];
        try (injection Hop as <-; reflexivity).
      destruct (b =? 0)%Z; [discriminate Hop|].
      injection Hop as <-. reflexivity.
Qed.

(** The value of an expression tree is what postfix evaluation of its
    postfix form leaves on top of the stack. *)
Lemma rpn_postfix (e : expr) :
  forall (v : Z) (rest : list lexeme) (st : list Z),
    eval e = Some v -> rpn (postfix e ++ rest) st = rpn rest (v :: st).
Proof.
  induction e as [digits | op l IHl r IHr]; intros v rest st He.
  - injection He as <-. reflexivity.
  - cbn [eval] in He.
    destruct (eval l) as [a|]; [|discriminate He].
    destruct (eval r) as [b|]; [|discriminate He].
    cbn [postfix]. rewrite <- !app_assoc.
    rewrite (IHl a _ _ eq_refl), (IHr b _ _ eq_refl).
    cbn [app rpn]. now rewrite He.
Qed.

(** Counterexample to C1 as stated.  The literal of 4301 digits one is a
    postfix expression of one literal and no operator, and postfix
    evaluation gives it its value; the lexer passes its digits to [int],
    which raises on more than 4300 of them. *)
Lemma long_literal_raises :
  negb (is_empty (ones 4301)) && Str.all Char.isdecimal (ones 4301) = true /\
  String.length (ones 4301) = 4301 /\
  rpn [LNum (ones 4301)] [] = Some [decimal (ones 4301)] /\
  compile_and_run (ones 4301) = Raise (ValueError (ones 4301)).
Proof.
  split; [vm_compute; reflexivity|]. split; [vm_compute; reflexivity|].
  split; [reflexivity|]. vm_compute. reflexivity.
Qed.

(** C1, amended.  A source that spells a postfix expression of integer
    literals, none longer than the 4300 digits that [int] converts, and the
    operators [+ - * /], with white space between its lexemes wherever
    wanted and at least between two literals, compiles and runs to the end,
    and leaves as the only value on the stack, hence on top of it, the value
    [v] that left-to-right postfix evaluation with floor division gives the
    expression.  The expression is valid and divides by no zero: its
    evaluation on the empty stack ends with the one value [v]. *)
Theorem postfix_expression_value (pieces : list (string * lexeme))
    (tail : string) (v : Z) :
  spaced false pieces = true ->
  Str.all Char.isspace tail = true ->
  rpn (map snd pieces) [] = Some [v] ->
  exists vm : VM.t,
    compile_and_run (spell pieces tail) = Ret vm /\
    VM.stack vm = [v] /\
    List.last (VM.stack vm) 0%Z = v.
Proof.
  intros Hsp Htail Hr. unfold compile_and_run.
  rewrite (compile_spell pieces tail Hsp Htail).
  set (code := map (fun p => instr_of (snd p)) pieces ++ [HALT]).
  destruct (run_lexemes (map snd pieces) [] [] [v] (VM.init code)
              (length code - 0)) as (vm' & Hrun & Hst & _);
    try reflexivity; try assumption.
  - unfold code. now rewrite map_map.
  - unfold code. rewrite length_app, !length_map. simpl. lia.
  - unfold VM.run. cbn [VM.code VM.pc VM.init]. rewrite Hrun.
    exists vm'. rewrite Hst. now repeat split.
Qed.

Lemma postfix_expression_value_witness :
  exists vm : VM.t,
    compile_and_run "2 9- 2/ " = Ret vm /\
    VM.stack vm = [-4]%Z /\
    List.last (VM.stack vm) 0%Z = (-4)%Z.
Proof.
  exact (postfix_expression_value
           [("", LNum "2"); (" ", LNum "9"); ("", LOp OSub);
            (" ", LNum "2"); ("", LOp ODiv)]
           " " (-4)%Z eq_refl eq_refl eq_refl).
Defined.

(** ** The iteration bounds are large enough *)

Lemma peek_end (l : Lexer.t) : Lexer.n l <= Lexer.i l -> Lexer.peek l = Char.NUL.
Proof.
  intros H. unfold Lexer.peek. apply Nat.ltb_ge in H. now rewrite H.
Qed.

Lemma peek_inside (l : Lexer.t) :
  Lexer.peek l <> Char.NUL -> Lexer.i l < Lexer.n l.
Proof.
  intros H. destruct (Nat.lt_ge_cases (Lexer.i l) (Lexer.n l)) as [|Hge];
    [assumption|]. now apply peek_end in Hge.
Qed.

Lemma advance_loop_facts (p : ascii -> bool) (fuel : nat) :
  forall l : Lexer.t,
    Lexer.src (Lexer.advance_loop p fuel l) = Lexer.src l /\
    Lexer.i l <= Lexer.i (Lexer.advance_loop p fuel l) <= Lexer.i l + fuel /\
    (p (Lexer.peek l) = true -> 0 < fuel ->
     Lexer.i l < Lexer.i (Lexer.advance_loop p fuel l)).
Proof.
  induction fuel as [|fuel IH]; intros l; cbn [Lexer.advance_loop].
  - repeat split; lia.
  - destruct (p (Lexer.peek l)) eqn:Hp.
    + destruct (IH (snd (Lexer.advance l))) as (Hs & Hi & _).
      cbn [Lexer.advance snd Lexer.src Lexer.i] in *.
      repeat split; try assumption; lia.
    + repeat split; try lia; discriminate.
Qed.

(** When one of the loops of the lexer returns, its condition is false. *)
Lemma advance_while_stops (p : ascii -> bool) (l : Lexer.t) :
  p Char.NUL = false -> p (Lexer.peek (Lexer.advance_while p l)) = false.
Proof.
  intros Hnul. unfold Lexer.advance_while.
  assert (H : forall fuel l, Lexer.n l - Lexer.i l <= fuel ->
                p (Lexer.peek (Lexer.advance_loop p fuel l)) = false).
  { clear l. induction fuel as [|fuel IH]; intros l Hf; cbn [Lexer.advance_loop].
    - rewrite peek_end by lia. exact Hnul.
    - destruct (p (Lexer.peek l)) eqn:Hp; [|exact Hp].
      apply IH. unfold Lexer.n in *. cbn [Lexer.advance snd Lexer.src Lexer.i]. lia. }
  now apply H.
Qed.

Lemma lexer_loops_stop (l : Lexer.t) :
  Char.isspace (Lexer.peek (Lexer.consume_ws l)) = false /\
  Lexer.ident_char (Lexer.peek (Lexer.advance_while Lexer.ident_char l)) = false /\
  Char.isdigit (Lexer.peek (Lexer.advance_while Char.isdigit l)) = false.
Proof. repeat split; now apply advance_while_stops. Qed.

Lemma advance_while_facts (p : ascii -> bool) (l : Lexer.t) :
  Lexer.i l <= Lexer.n l ->
  Lexer.n (Lexer.advance_while p l) = Lexer.n l /\
  Lexer.i l <= Lexer.i (Lexer.advance_while p l) <= Lexer.n l /\
  (p (Lexer.peek l) = true -> Lexer.peek l <> Char.NUL ->
   Lexer.i l < Lexer.i (Lexer.advance_while p l)).
Proof.
  intros Hin. unfold Lexer.advance_while.
  destruct (advance_loop_facts p (Lexer.n l - Lexer.i l) l) as (Hs & Hi & Hlt).
  unfold Lexer.n at 1. rewrite Hs. repeat split; try lia.
  intros Hp Hnul. apply Hlt; [exact Hp|]. apply peek_inside in Hnul. lia.
Qed.

Lemma keyword_kinds (s : string) (kw : Tok.kind) :
  Lexer.KEYWORDS s = Some kw -> kw = Tok.MAIN \/ kw = Tok.END \/ kw = Tok.DEF.
Proof.
  unfold Lexer.KEYWORDS.
  destruct (String.eqb s "main"); [intros [= <-]; auto|].
  destruct (String.eqb s "end"); [intros [= <-]; auto|].
  destruct (String.eqb s "def"); [intros [= <-]; auto|discriminate].
Qed.

(** A call of [next_token] returns or raises; it leaves the source alone and
    the cursor inside it, and a token other than EOF moves the cursor. *)
Lemma next_token_facts (l l' : Lexer.t) (r : result Token) :
  Lexer.next_token l = (r, l') ->
  Lexer.i l <= Lexer.n l ->
  r <> Timeout /\
  Lexer.n l' = Lexer.n l /\
  Lexer.i l' <= Lexer.n l' /\
  Lexer.i l <= Lexer.i l' /\
  (forall tok, r = Ret tok -> type tok = Tok.EOF \/ Lexer.i l < Lexer.i l').
Proof.
  unfold Lexer.next_token. cbv zeta. intros H Hin.
  destruct (advance_while_facts Char.isspace l Hin) as (Hn1 & Hi1 & _).
  fold (Lexer.consume_ws l) in Hn1, Hi1.
  set (l1 := Lexer.consume_ws l) in *.
  destruct (Ascii.eqb (Lexer.peek l1) Char.NUL) eqn:Hnul.
  { injection H as <- <-. repeat split; try congruence; try lia.
    intros tok [= <-]. now left. }
  apply Ascii.eqb_neq in Hnul.
  assert (Hin1 : Lexer.i l1 <= Lexer.n l1) by lia.
  destruct (Char.isalpha (Lexer.peek l1) || Ascii.eqb (Lexer.peek l1) "_") eqn:Hid.
  { destruct (advance_while_facts Lexer.ident_char l1 Hin1) as (Hn2 & Hi2 & Hlt).
    assert (Hlt' : Lexer.i l1 < Lexer.i (Lexer.advance_while Lexer.ident_char l1)).
    { apply Hlt; [|exact Hnul]. unfold Lexer.ident_char, Char.isalnum.
      apply orb_prop in Hid as [-> | ->]; [reflexivity | apply orb_true_r]. }
    destruct (Lexer.KEYWORDS _); injection H as <- <-;
      repeat split; try congruence; try lia; intros tok _; right; lia. }
  destruct (Char.isdigit (Lexer.peek l1)) eqn:Hdig.
  { destruct (advance_while_facts Char.isdigit l1 Hin1) as (Hn2 & Hi2 & Hlt).
    specialize (Hlt Hdig Hnul).
    destruct (int _); injection H as <- <-;
      repeat split; try congruence; try lia; intros tok _; right; lia. }
  apply peek_inside in Hnul.
  cbn [Lexer.advance] in H.
  assert (Hfin : forall tok,
    (Ret tok, {| Lexer.src := Lexer.src l1; Lexer.i := Lexer.i l1 + 1 |}) = (r, l') ->
    r <> Timeout /\ Lexer.n l' = Lexer.n l /\ Lexer.i l' <= Lexer.n l' /\
    Lexer.i l <= Lexer.i l' /\
    (forall tok, r = Ret tok -> type tok = Tok.EOF \/ Lexer.i l < Lexer.i l')).
  { intros tok [= <- <-]. unfold Lexer.n in *. cbn [Lexer.src Lexer.i].
    repeat split; try congruence; lia. }
  destruct (Ascii.eqb (Lexer.peek l1) "+"); [now apply Hfin in H|].
  destruct (Ascii.eqb (Lexer.peek l1) "-"); [now apply Hfin in H|].
  destruct (Ascii.eqb (Lexer.peek l1) "*"); [now apply Hfin in H|].
  destruct (Ascii.eqb (Lexer.peek l1) "/"); now apply Hfin in H.
Qed.

(** The payload of a NUMBER token is an [int], that of an IDENT token a
    [str]. *)
Lemma token_payload (l l' : Lexer.t) (tok : Token) :
  Lexer.next_token l = (Ret tok, l') ->
  (type tok = Tok.NUMBER -> exists z, val tok = VInt z) /\
  (type tok = Tok.IDENT -> exists s, val tok = VStr s).
Proof.
  unfold Lexer.next_token. cbv zeta.
  set (l1 := Lexer.consume_ws l).
  destruct (Ascii.eqb (Lexer.peek l1) Char.NUL);
    [intros [= <- _]; split; discriminate|].
  destruct (Char.isalpha (Lexer.peek l1) || Ascii.eqb (Lexer.peek l1) "_").
  { destruct (Lexer.KEYWORDS _) as [kw|] eqn:Hkw; intros [= <- _]; cbn [type val].
    - apply keyword_kinds in Hkw as [-> | [-> | ->]]; split; discriminate.
    - split; [discriminate | eauto]. }
  destruct (Char.isdigit (Lexer.peek l1)).
  { destruct (int _); [|discriminate]. intros [= <- _]. cbn [type val].
    split; [eauto | discriminate]. }
  cbn [Lexer.advance].
  repeat (destruct (Ascii.eqb (Lexer.peek l1) _);
          [intros [= <- _]; split; discriminate|]).
  intros [= <- _]; split; discriminate.
Qed.

Lemma match_spec (typ : Tok.kind) (p : Parser.t) :
  Parser.match_ typ p =
  if Tok.eqb (type (Parser.cur p)) typ then
    match Lexer.next_token (Parser.lexer p) with
    | (Ret tok, lx) =>
        (Ret true,
         {| Parser.lexer := lx; Parser.cur := tok; Parser.code := Parser.code p |})
    | (Raise e, lx) =>
        (Raise e,
         {| Parser.lexer := lx; Parser.cur := Parser.cur p;
            Parser.code := Parser.code p |})
    | (Timeout, lx) =>
        (Timeout,
         {| Parser.lexer := lx; Parser.cur := Parser.cur p;
            Parser.code := Parser.code p |})
    end
  else (Ret false, p).
Proof.
  unfold Parser.match_, bind, gets, Parser.lexer_next_token.
  destruct (Tok.eqb _ _); [|reflexivity].
  destruct (Lexer.next_token _) as [[tok| |] lx]; reflexivity.
Qed.

Lemma match_facts (typ : Tok.kind) (p p' : Parser.t) (r : result bool) :
  Parser.match_ typ p = (r, p') ->
  inside p ->
  r <> Timeout /\
  inside p' /\
  Lexer.n (Parser.lexer p') = Lexer.n (Parser.lexer p) /\
  Lexer.i (Parser.lexer p) <= Lexer.i (Parser.lexer p') /\
  (r = Ret true -> moved p p') /\
  (type (Parser.cur p) = typ -> r <> Ret false).
Proof.
  rewrite match_spec. unfold inside, moved. intros H Hin.
  destruct (Tok.eqb _ _) eqn:Heq.
  - destruct (Lexer.next_token _) as [r0 lx] eqn:Hn.
    destruct (next_token_facts _ _ _ Hn Hin) as (Hnt & Hn' & Hi' & Hle & Hmv).
    destruct r0 as [tok| |]; injection H as <- <-; cbn [Parser.lexer Parser.cur];
      repeat split; try congruence; try lia.
    intros _. now apply Hmv.
  - injection H as <- <-. repeat split; try congruence; try lia.
    intros Ht. apply tok_eqb_eq in Ht. congruence.
Qed.

Lemma emit_facts (ins : instr) (p : Parser.t) :
  Parser.emit ins p =
  (Ret tt, {| Parser.lexer := Parser.lexer p; Parser.cur := Parser.cur p;
              Parser.code := Parser.code p ++ [ins] |}).
Proof. reflexivity. Qed.

(** A consuming call: [match_] on the type of the lookahead, then some
    [emit]. *)
Lemma consume_emit (typ : Tok.kind) (ins : instr) (p p' : Parser.t)
    (r : result unit) :
  (exec Parser.match_ typ; Parser.emit ins)%py p = (r, p') ->
  type (Parser.cur p) = typ ->
  inside p ->
  r <> Timeout /\
  (r = Ret tt ->
   inside p' /\ Lexer.n (Parser.lexer p') = Lexer.n (Parser.lexer p) /\
   moved p p').
Proof.
  unfold bind. intros H Ht Hin.
  destruct (Parser.match_ typ p) as [r1 p1] eqn:Hm.
  destruct (match_facts _ _ _ _ Hm Hin) as (Hnt & Hin1 & Hn1 & Hle & Hmv & Hhit).
  specialize (Hhit Ht).
  destruct r1 as [[|]| |]; try (now elim Hhit); try (now elim Hnt).
  - rewrite emit_facts in H. injection H as <- <-.
    split; [discriminate|]. intros _. now repeat split; try apply Hmv.
  - injection H as <- <-. split; discriminate.
Qed.

Lemma expression_facts (p p' : Parser.t) (r : result unit) :
  Parser.expression p = (r, p') ->
  inside p ->
  r <> Timeout /\
  (r = Ret tt ->
   inside p' /\ Lexer.n (Parser.lexer p') = Lexer.n (Parser.lexer p) /\
   moved p p').
Proof.
  unfold Parser.expression, bind at 1, gets at 1. intros H Hin.
  destruct (type (Parser.cur p)) eqn:Ht;
    try (injection H as <- <-; split; discriminate);
    try (eapply consume_emit; eassumption).
  (* DEF IDENT *)
  unfold bind at 1 in H.
  destruct (Parser.match_ Tok.DEF p) as [r1 p1] eqn:Hm.
  destruct (match_facts _ _ _ _ Hm Hin) as (Hnt & Hin1 & Hn1 & Hle & Hmv & Hhit).
  specialize (Hhit Ht).
  destruct r1 as [[|]| |]; try (now elim Hhit); try (now elim Hnt);
    [|injection H as <- <-; split; discriminate].
  unfold bind at 1, gets at 1 in H.
  destruct (Tok.eqb (type (Parser.cur p1)) Tok.IDENT) eqn:Hid; cbn [negb] in H;
    [|injection H as <- <-; split; discriminate].
  apply tok_eqb_eq in Hid.
  destruct (consume_emit _ _ _ _ _ H Hid Hin1) as (Hnt2 & Hok).
  split; [exact Hnt2|]. intros Hr. destruct (Hok Hr) as (Hin2 & Hn2 & Hmv2).
  repeat split; [exact Hin2 | congruence |].
  destruct Hmv2 as [He | Hlt]; [now left|]. right.
  destruct (Hmv eq_refl) as [He | Hlt1]; [congruence | lia].
Qed.

(** The loop of [code_block] returns or raises within its bound. *)
Lemma code_block_loop_total (fuel : nat) :
  forall p : Parser.t,
    inside p ->
    Parser.block_end (type (Parser.cur p)) = true \/
    Lexer.n (Parser.lexer p) - Lexer.i (Parser.lexer p) < fuel ->
    fst (Parser.code_block_loop fuel p) <> Timeout.
Proof.
  induction fuel as [|fuel IH]; intros p Hin Hm.
  - destruct Hm as [He | Hlt]; [|lia].
    now rewrite code_block_loop_end.
  - destruct (Parser.block_end (type (Parser.cur p))) eqn:He.
    + now rewrite code_block_loop_end.
    + destruct Hm as [Hm | Hlt]; [discriminate Hm|].
      cbn [Parser.code_block_loop]. unfold bind at 1, gets at 1.
      rewrite He. unfold bind.
      destruct (Parser.expression p) as [r p1] eqn:Hx.
      destruct (expression_facts _ _ _ Hx Hin) as (Hnt & Hok).
      destruct r as [[]| |]; try discriminate; [|now elim Hnt].
      destruct (Hok eq_refl) as (Hin1 & Hn1 & Hmv).
      apply IH; [exact Hin1|].
      destruct Hmv as [-> | Hlt1]; [now left|]. right. unfold inside in *. lia.
Qed.

Lemma code_block_total (p : Parser.t) :
  inside p -> fst (Parser.code_block p) <> Timeout.
Proof.
  intros Hin. unfold Parser.code_block.
  apply code_block_loop_total; [exact Hin|]. right. lia.
Qed.

Lemma expect_total (typ : Tok.kind) (p : Parser.t) :
  fst (Parser.expect typ p) <> Timeout.
Proof.
  unfold Parser.expect, bind. rewrite match_spec.
  destruct (Tok.eqb _ _); [|discriminate].
  destruct (Lexer.next_token (Parser.lexer p)) as [[tok| |] lx] eqn:Hn;
    try discriminate.
  exfalso. unfold Lexer.next_token in Hn. cbv zeta in Hn.
  repeat match type of Hn with
         | (if ?c then _ else _) = _ => destruct c
         | match ?c with Some _ => _ | None => _ end = _ => destruct c
         | (let (_, _) := Lexer.advance _ in _) = _ => cbn [Lexer.advance] in Hn
         end; discriminate Hn.
Qed.

(** The parser returns a program or raises, on every source. *)
Lemma compile_total (src : string) : compile src <> Timeout.
Proof.
  unfold compile, Parser.init.
  destruct (Lexer.next_token (Lexer.init src)) as [r lx] eqn:Hn.
  destruct (next_token_facts _ _ _ Hn ltac:(cbn; lia)) as (Hnt & _ & Hin & _).
  destruct r as [tok| |]; try discriminate; [|now elim Hnt].
  set (p := {| Parser.lexer := lx; Parser.cur := tok; Parser.code := [] |}).
  assert (Hp : inside p) by exact Hin.
  assert (Htail : forall q : Parser.t,
            fst ((exec Parser.expect Tok.EOF; exec Parser.emit HALT;
                  gets Parser.code)%py q) <> Timeout).
  { intros q. unfold bind at 1.
    pose proof (expect_total Tok.EOF q) as He.
    destruct (Parser.expect Tok.EOF q) as [[v| |] q']; cbn [fst] in *;
      [discriminate | discriminate | now elim He]. }
  unfold Parser.program, bind at 1, gets at 1.
  destruct (Tok.eqb (type (Parser.cur p)) Tok.MAIN) eqn:Hmain.
  - unfold bind at 1. unfold bind at 1.
    destruct (Parser.match_ Tok.MAIN p) as [r1 p1] eqn:Hm.
    destruct (match_facts _ _ _ _ Hm Hp) as (Hnt1 & Hin1 & _).
    destruct r1 as [b| |]; try discriminate; [|now elim Hnt1].
    unfold bind at 1.
    pose proof (code_block_total p1 Hin1) as Hc.
    destruct (Parser.code_block p1) as [[u| |] q]; cbn [fst] in *;
      [|discriminate|now elim Hc].
    pose proof (expect_total Tok.END q) as He.
    destruct (Parser.expect Tok.END q) as [[v| |] q']; cbn [fst] in *;
      [apply Htail | discriminate | now elim He].
  - unfold bind at 1.
    pose proof (code_block_total p Hp) as Hc.
    destruct (Parser.code_block p) as [[u| |] q]; cbn [fst] in *;
      [apply Htail | discriminate | now elim Hc].
Qed.

(** [compile_and_run] returns or raises, on every source. *)
Lemma compile_and_run_total (src : string) : compile_and_run src <> Timeout.
Proof.
  unfold compile_and_run. pose proof (compile_total src) as Hc.
  destruct (compile src) as [code| |]; try discriminate; [|now elim Hc].
  pose proof (run_no_timeout (VM.init code)) as Hr.
  destruct (VM.run (VM.init code)) as [[u| |] vm]; try discriminate.
  now elim Hr.
Qed.

(** * Further properties *)

(** ** Words: identifiers and keywords *)

Lemma word_start_char (c : ascii) :
  word_start c = true ->
  Char.isspace c = false /\ Ascii.eqb c Char.NUL = false /\
  Lexer.ident_char c = true /\ Char.isdigit c = false.
Proof. each_char c. Qed.

Lemma space_not_ident (c : ascii) :
  Char.isspace c = true -> Lexer.ident_char c = false.
Proof. each_char c. Qed.

Lemma head_blank_not_ident (s : string) :
  Str.all Char.isspace s = true -> Lexer.ident_char (Str.head s) = false.
Proof.
  destruct s as [|c s]; [reflexivity|]. cbn [Str.all Str.head].
  intros H. apply andb_prop in H as [H _]. now apply space_not_ident.
Qed.

Lemma word_all_ident (w : string) :
  word_shape w = true -> Str.all Lexer.ident_char w = true.
Proof.
  destruct w as [|c r]; [discriminate|]. cbn [word_shape Str.all].
  intros H. apply andb_prop in H as [Hc Hr].
  apply word_start_char in Hc as (_ & _ & -> & _). exact Hr.
Qed.

Lemma next_token_word_at (pre gap w rest : string) :
  Str.all Char.isspace gap = true ->
  word_shape w = true ->
  Lexer.ident_char (Str.head rest) = false ->
  Lexer.next_token (at_ pre (gap +:+ w +:+ rest)) =
  (Ret (mkToken (word_kind w) (VStr w) (String.length (pre +:+ gap))),
   at_ ((pre +:+ gap) +:+ w) rest).
Proof.
  intros Hgap Hw Hrest. pose proof (word_all_ident w Hw) as Hall.
  destruct w as [|c r]; [discriminate Hw|].
  cbn [word_shape] in Hw. apply andb_prop in Hw as [Hc _].
  destruct (word_start_char c Hc) as (Hsp & Hnul & _ & _).
  unfold Lexer.next_token. cbv zeta.
  rewrite consume_ws_at by (rewrite ?str_app_cons; assumption).
  rewrite peek_at, str_app_cons. cbn [Str.head].
  unfold word_start in Hc. rewrite Hnul, Hc.
  rewrite <- str_app_cons.
  rewrite advance_while_run by assumption.
  rewrite slice_at. unfold word_kind.
  destruct (Lexer.KEYWORDS (lower (String c r))); reflexivity.
Qed.

Lemma name_ok_facts (name : string) :
  name_ok name = true -> word_shape name = true /\ word_kind name = Tok.IDENT.
Proof.
  unfold name_ok. intros H. apply andb_prop in H as [Hs Hk].
  now apply tok_eqb_eq in Hk.
Qed.

Lemma keyword_ok_facts (k : Tok.kind) (kw : string) :
  keyword_ok k kw = true -> word_shape kw = true /\ word_kind kw = k.
Proof.
  unfold keyword_ok. intros H. apply andb_prop in H as [H _].
  apply andb_prop in H as [Hs Hk]. now apply tok_eqb_eq in Hk.
Qed.

Lemma nonempty_blank_head (gap rest : string) :
  is_empty gap = false -> Str.all Char.isspace gap = true ->
  Lexer.ident_char (Str.head (gap +:+ rest)) = false.
Proof.
  destruct gap as [|c gap]; [discriminate|]. intros _ H.
  rewrite str_app_cons. cbn [Str.head]. cbn [Str.all] in H.
  apply andb_prop in H as [H _]. now apply space_not_ident.
Qed.

(** ** Lexing and parsing the expression forms *)

(** The first token of a form, behind a gap. *)
Lemma next_token_form (pre gap rest : string) (f : form) :
  Str.all Char.isspace gap = true ->
  form_ok f = true ->
  delimited f (Str.head rest) = true ->
  Lexer.next_token (at_ pre (gap +:+ form_text f +:+ rest)) =
  (Ret (first_token f (String.length (pre +:+ gap))),
   at_ ((pre +:+ gap) +:+ first_text f) (more_text f +:+ rest)).
Proof.
  intros Hgap Hok Hdel. unfold form_text. rewrite str_app_assoc.
  destruct f as [x | name | kw gap' name]; cbn [first_text more_text first_token].
  - rewrite !str_app_nil_l. apply next_token_lexeme; try assumption.
    intros Hnum. destruct x as [digits | op]; [|discriminate Hnum].
    cbn [delimited] in Hdel. now apply negb_true_iff in Hdel.
  - rewrite !str_app_nil_l. cbn [form_ok] in Hok.
    apply name_ok_facts in Hok as [Hs Hk].
    cbn [delimited] in Hdel. apply negb_true_iff in Hdel.
    rewrite (next_token_word_at pre gap name rest Hgap Hs Hdel), Hk. reflexivity.
  - cbn [form_ok] in Hok. apply andb_prop in Hok as [Hok Hname].
    apply andb_prop in Hok as [Hok Hg']. apply andb_prop in Hok as [Hkw Hne].
    apply negb_true_iff in Hne.
    apply keyword_ok_facts in Hkw as [Hs Hk].
    rewrite (next_token_word_at pre gap kw _ Hgap Hs), Hk; [reflexivity|].
    rewrite str_app_assoc. now apply nonempty_blank_head.
Qed.

Lemma first_token_type (f : form) (pos : nat) :
  Parser.block_end (type (first_token f pos)) = false /\
  Tok.eqb (type (first_token f pos)) Tok.MAIN = false.
Proof.
  destruct f as [x | name | kw gap name]; [apply token_of_type | now split..].
Qed.

(** One call of [expression] on a form whose first token is the lookahead. *)
Lemma expression_form (p : Parser.t) (f : form) (pos : nat) (pre rest : string)
    (tok : Token) (lx : Lexer.t) :
  Parser.cur p = first_token f pos ->
  Parser.lexer p = at_ pre (more_text f +:+ rest) ->
  form_ok f = true ->
  delimited f (Str.head rest) = true ->
  Lexer.next_token (at_ (pre +:+ more_text f) rest) = (Ret tok, lx) ->
  Parser.expression p =
  (Ret tt, {| Parser.lexer := lx; Parser.cur := tok;
              Parser.code := Parser.code p ++ [instr_of_form f] |}).
Proof.
  intros Hcur Hlex Hok Hdel Hnext.
  destruct f as [x | name | kw gap name];
    cbn [first_token more_text instr_of_form] in *.
  - rewrite str_app_nil_r in Hnext. rewrite str_app_nil_l in Hlex.
    apply (expression_lexeme p x pos); [exact Hcur | now rewrite Hlex].
  - rewrite str_app_nil_r in Hnext. rewrite str_app_nil_l in Hlex.
    unfold Parser.expression, bind, gets. rewrite Hcur. cbn [type val].
    erewrite match_hit; [reflexivity | now rewrite Hcur | now rewrite Hlex].
  - cbn [form_ok] in Hok. apply andb_prop in Hok as [Hok Hname].
    apply andb_prop in Hok as [Hok Hg]. apply name_ok_facts in Hname as [Hs Hk].
    cbn [delimited] in Hdel. apply negb_true_iff in Hdel.
    pose proof (next_token_word_at pre gap name rest Hg Hs Hdel) as Hid.
    rewrite Hk, <- str_app_assoc in Hid. rewrite <- Hlex in Hid.
    rewrite str_app_assoc in Hid.
    unfold Parser.expression, bind at 1, gets at 1. rewrite Hcur. cbn [type].
    unfold bind at 1.
    erewrite match_hit; [|now rewrite Hcur|exact Hid].
    unfold bind at 1, gets at 1. cbn [Parser.cur type Tok.eqb negb val].
    unfold bind.
    erewrite match_hit; [reflexivity | reflexivity | exact Hnext].
Qed.

Lemma spell_forms_app (pieces : list (string * form)) (a b : string) :
  spell_forms pieces (a +:+ b) = spell_forms pieces a +:+ b.
Proof.
  induction pieces as [|[gap f] rest IH]; [reflexivity|].
  cbn [spell_forms]. now rewrite IH, !str_app_assoc.
Qed.

Lemma spell_forms_nil (pieces : list (string * form)) (tail : string) :
  spell_forms pieces tail = spell_forms pieces "" +:+ tail.
Proof. now rewrite <- spell_forms_app, str_app_nil_l. Qed.

(** The loop of [code_block] over a sequence of forms: one iteration for
    each, up to the token [tok] that the text behind them begins with. *)
Lemma parse_forms (tail : string) (rest : list (string * form)) :
  forall (pre : string) (f : form) (pos : nat) (c : list instr) (k : nat)
         (tok : Token) (lx : Lexer.t),
    form_ok f = true ->
    delimited f (Str.head (spell_forms rest tail)) = true ->
    well_spaced rest tail = true ->
    Lexer.next_token (at_ (pre +:+ more_text f +:+ spell_forms rest "") tail)
    = (Ret tok, lx) ->
    Parser.code_block_loop (S (length rest) + k)
      {| Parser.lexer := at_ pre (more_text f +:+ spell_forms rest tail);
         Parser.cur := first_token f pos;
         Parser.code := c |}
    = Parser.code_block_loop k
        {| Parser.lexer := lx; Parser.cur := tok;
           Parser.code := c ++ instr_of_form f :: bytecode rest |}.
Proof.
  assert (Hiter : forall (n : nat) (p : Parser.t),
            Parser.block_end (type (Parser.cur p)) = false ->
            Parser.code_block_loop (S n) p
            = (exec Parser.expression; Parser.code_block_loop n)%py p).
  { intros n p He. cbn [Parser.code_block_loop]. unfold bind at 1, gets at 1.
    now rewrite He. }
  induction rest as [|[gap g] rest IH]; intros pre f pos c k tok lx Hok Hdel Hsp Hn;
    cbn [length]; change (S ?n + k) with (S (n + k));
    rewrite Hiter by apply first_token_type; unfold bind at 1.
  - cbn [spell_forms] in *. rewrite str_app_nil_r in Hn.
    erewrite expression_form; [reflexivity | reflexivity | reflexivity | | | ];
      eassumption.
  - cbn [well_spaced] in Hsp. apply andb_prop in Hsp as [Hsp Hrest].
    apply andb_prop in Hsp as [Hsp Hdelg]. apply andb_prop in Hsp as [Hgap Hokg].
    erewrite expression_form; [|reflexivity|reflexivity|exact Hok|exact Hdel|].
    2:{ cbn [spell_forms]. now apply next_token_form. }
    cbn [Parser.code].
    rewrite (IH _ g _ (c ++ [instr_of_form f]) k tok lx Hokg Hdelg Hrest).
    + unfold bytecode. cbn [map snd]. now rewrite <- app_assoc.
    + rewrite <- Hn. f_equal. f_equal. cbn [spell_forms]. unfold form_text.
      now rewrite !str_app_assoc.
Qed.

Lemma form_text_length (f : form) :
  form_ok f = true -> 1 <= String.length (first_text f).
Proof.
  destruct f as [[[|c r] | op] | [|c r] | [|c r] gap name]; cbn; intros H;
    try discriminate H; lia.
Qed.

Lemma spell_forms_length (tail : string) (pieces : list (string * form)) :
  well_spaced pieces tail = true ->
  length pieces + String.length tail <= String.length (spell_forms pieces tail).
Proof.
  induction pieces as [|[gap f] rest IH]; intros H; [simpl; lia|].
  cbn [well_spaced] in H. apply andb_prop in H as [H Hrest].
  apply andb_prop in H as [H _]. apply andb_prop in H as [_ Hok].
  cbn [spell_forms length]. unfold form_text. rewrite !str_length_app.
  specialize (IH Hrest). pose proof (form_text_length f Hok). lia.
Qed.

Lemma bind_same {S A B} (m m' : M S A) (k : A -> M S B) (s s' : S) :
  m s = m' s' -> bind m k s = bind m' k s'.
Proof. unfold bind. now intros ->. Qed.

Lemma bind_assoc {S A B C} (m : M S A) (k : A -> M S B) (h : B -> M S C)
    (s : S) :
  bind (bind m k) h s = bind m (fun a => bind (k a) h) s.
Proof. unfold bind. destruct (m s) as [[a| |] s']; reflexivity. Qed.

Lemma code_block_bind {B} (k : unit -> M Parser.t B) (p : Parser.t) :
  bind Parser.code_block k p =
  bind (Parser.code_block_loop
          (Lexer.n (Parser.lexer p) - Lexer.i (Parser.lexer p) + 1)) k p.
Proof. reflexivity. Qed.

Lemma program_unwrapped (p : Parser.t) :
  Tok.eqb (type (Parser.cur p)) Tok.MAIN = false ->
  Parser.program p =
  (exec Parser.code_block_loop
          (Lexer.n (Parser.lexer p) - Lexer.i (Parser.lexer p) + 1);
   finish)%py p.
Proof.
  intros Hmain. unfold Parser.program, bind at 1, gets at 1. rewrite Hmain.
  apply code_block_bind.
Qed.

(** The parse of a sequence of forms, up to the token [tok] that the text
    behind them begins with: the loop of [code_block] is left with [k]
    iterations, at least one if there is text left. *)
Lemma compile_forms (pieces : list (string * form)) (tail : string)
    (tok : Token) (lx : Lexer.t) :
  well_spaced pieces tail = true ->
  Lexer.next_token (at_ (spell_forms pieces "") tail) = (Ret tok, lx) ->
  Tok.eqb (type tok) Tok.MAIN = false ->
  exists k : nat,
    (is_empty tail = false -> 0 < k) /\
    compile (spell_forms pieces tail) =
    fst ((exec Parser.code_block_loop k; finish)%py
           {| Parser.lexer := lx; Parser.cur := tok;
              Parser.code := bytecode pieces |}).
Proof.
  intros Hsp Hn Hmain. unfold compile, Parser.init, Lexer.init.
  destruct pieces as [|[gap f] rest].
  - cbn [spell_forms] in *.
    change {| Lexer.src := tail; Lexer.i := 0 |} with (at_ "" tail).
    rewrite Hn, program_unwrapped by exact Hmain.
    eexists. split; [|reflexivity]. intros _. lia.
  - change {| Lexer.src := spell_forms ((gap, f) :: rest) tail; Lexer.i := 0 |}
      with (at_ "" (spell_forms ((gap, f) :: rest) tail)).
    cbn [well_spaced] in Hsp. apply andb_prop in Hsp as [Hsp Hrest].
    apply andb_prop in Hsp as [Hsp Hdel]. apply andb_prop in Hsp as [Hgap Hok].
    cbn [spell_forms] in *.
    rewrite (next_token_form "" gap _ f Hgap Hok Hdel).
    set (pre := ("" +:+ gap) +:+ first_text f).
    rewrite program_unwrapped by apply first_token_type.
    cbn [Parser.lexer].
    pose proof (spell_forms_length tail rest Hrest) as Hlen.
    match goal with
    | |- context [Parser.code_block_loop ?F] => set (fuel := F)
    end.
    assert (Hfuel : fuel = S (length rest)
                           + (String.length (more_text f +:+ spell_forms rest tail)
                              - length rest)).
    { unfold fuel, Lexer.n, at_. cbn [Lexer.src Lexer.i].
      rewrite !str_length_app. lia. }
    exists (String.length (more_text f +:+ spell_forms rest tail) - length rest).
    split.
    { intros Hne. rewrite str_length_app. destruct tail; [discriminate|].
      simpl in Hlen. lia. }
    rewrite Hfuel. f_equal. apply bind_same.
    apply (parse_forms tail rest pre f _ [] _ tok lx Hok Hdel Hrest).
    rewrite <- Hn. f_equal. f_equal. unfold pre, form_text.
    now rewrite !str_app_assoc, str_app_nil_l.
Qed.

Lemma expect_hit (p : Parser.t) (typ : Tok.kind) (tok : Token) (lx : Lexer.t) :
  type (Parser.cur p) = typ ->
  Lexer.next_token (Parser.lexer p) = (Ret tok, lx) ->
  Parser.expect typ p =
  (Ret tt, {| Parser.lexer := lx; Parser.cur := tok; Parser.code := Parser.code p |}).
Proof.
  intros Ht Hn. unfold Parser.expect, bind.
  now rewrite (match_hit p typ tok lx Ht Hn).
Qed.

Lemma expect_miss (p : Parser.t) (typ : Tok.kind) :
  type (Parser.cur p) <> typ ->
  Parser.expect typ p =
  (Raise (SyntaxError ("Expected " +:+ Tok.name typ) (Parser.cur p)), p).
Proof.
  intros Ht. unfold Parser.expect, bind. now rewrite (match_miss p typ Ht).
Qed.

(** Behind the code block, with EOF as the lookahead at the end of the
    source: the program is the code and HALT. *)
Lemma finish_at_eof (pre : string) (pos : nat) (c : list instr) :
  fst (finish {| Parser.lexer := at_ pre "";
                 Parser.cur := mkToken Tok.EOF VNone pos;
                 Parser.code := c |})
  = Ret (c ++ [HALT]).
Proof.
  unfold finish, bind at 1.
  erewrite expect_hit; [|reflexivity|apply (next_token_eof pre "" eq_refl)].
  reflexivity.
Qed.

Lemma loop_then (k : nat) (p : Parser.t) {B} (m : M Parser.t B) :
  Parser.block_end (type (Parser.cur p)) = true ->
  (exec Parser.code_block_loop k; m)%py p = m p.
Proof.
  intros He. unfold bind. now rewrite code_block_loop_end.
Qed.

(** A character outside the lexical surface, behind a gap. *)
Lemma next_token_other_at (pre ws rest : string) (c : ascii) :
  Str.all Char.isspace ws = true ->
  Char.isspace c = false ->
  c <> Char.NUL ->
  word_start c = false ->
  Char.isdigit c = false ->
  operator_char c = false ->
  Lexer.next_token (at_ pre (ws +:+ String c rest)) =
  (Ret (mkToken Tok.ERROR (VStr (Str.one c)) (String.length (pre +:+ ws))),
   at_ ((pre +:+ ws) +:+ Str.one c) rest).
Proof.
  intros Hws Hsp Hnul Hw Hdi Hop.
  unfold Lexer.next_token. cbv zeta.
  rewrite consume_ws_at by assumption.
  rewrite peek_at. cbn [Str.head].
  apply Ascii.eqb_neq in Hnul. unfold word_start in Hw.
  rewrite Hnul, Hw, Hdi, advance_at.
  unfold operator_char in Hop.
  repeat (apply orb_false_elim in Hop as [Hop ?]).
  repeat match goal with H : Ascii.eqb c _ = false |- _ => rewrite H; clear H end.
  reflexivity.
Qed.

Lemma compile_forms_eof (pieces : list (string * form)) (tail : string) :
  well_spaced pieces tail = true ->
  Str.all Char.isspace tail = true ->
  compile (spell_forms pieces tail) = Ret (bytecode pieces ++ [HALT]).
Proof.
  intros Hsp Htail.
  destruct (compile_forms pieces tail _ _ Hsp
              (next_token_eof (spell_forms pieces "") tail Htail) eq_refl)
    as (k & _ & ->).
  rewrite loop_then by reflexivity. apply finish_at_eof.
Qed.

(** The code block of a [main] program: the token behind [main] is read by
    [match_], and the loop runs over the forms up to the token [tok] that
    the text behind them begins with. *)
Lemma compile_main (g0 m : string) (pieces : list (string * form))
    (tail : string) (tok : Token) (lx : Lexer.t) :
  Str.all Char.isspace g0 = true ->
  keyword_ok Tok.MAIN m = true ->
  Lexer.ident_char (Str.head (spell_forms pieces tail)) = false ->
  well_spaced pieces tail = true ->
  Lexer.next_token (at_ ((g0 +:+ m) +:+ spell_forms pieces "") tail)
  = (Ret tok, lx) ->
  exists k : nat,
    (is_empty tail = false -> 0 < k) /\
    compile (g0 +:+ m +:+ spell_forms pieces tail) =
    fst ((exec Parser.code_block_loop k; exec Parser.expect Tok.END; finish)%py
           {| Parser.lexer := lx; Parser.cur := tok;
              Parser.code := bytecode pieces |}).
Proof.
  intros Hg0 Hm Hdelim Hsp Hn. apply keyword_ok_facts in Hm as [Hms Hmk].
  unfold compile, Parser.init, Lexer.init.
  change {| Lexer.src := g0 +:+ m +:+ spell_forms pieces tail; Lexer.i := 0 |}
    with (at_ "" (g0 +:+ m +:+ spell_forms pieces tail)).
  rewrite (next_token_word_at "" g0 m _ Hg0 Hms Hdelim), Hmk, !str_app_nil_l.
  unfold Parser.program, bind at 1, gets at 1. cbn [Parser.cur type Tok.eqb].
  fold finish. rewrite bind_assoc. unfold bind at 1.
  destruct pieces as [|[gap f] rest].
  - cbn [spell_forms] in *. rewrite str_app_nil_r in Hn.
    erewrite match_hit; [|reflexivity|exact Hn].
    rewrite bind_assoc, code_block_bind. cbn [Parser.lexer Parser.code].
    exists (Lexer.n lx - Lexer.i lx + 1). split; [intros _; lia|]. reflexivity.
  - cbn [well_spaced] in Hsp. apply andb_prop in Hsp as [Hsp Hrest].
    apply andb_prop in Hsp as [Hsp Hdel]. apply andb_prop in Hsp as [Hgap Hok].
    cbn [spell_forms] in *.
    erewrite match_hit; [|reflexivity|apply (next_token_form _ _ _ _ Hgap Hok Hdel)].
    set (pre := ((g0 +:+ m) +:+ gap) +:+ first_text f).
    rewrite bind_assoc, code_block_bind. cbn [Parser.lexer Parser.code].
    pose proof (spell_forms_length tail rest Hrest) as Hlen.
    match goal with
    | |- context [Parser.code_block_loop ?F] => set (fuel := F)
    end.
    assert (Hfuel : fuel = S (length rest)
                           + (String.length (more_text f +:+ spell_forms rest tail)
                              - length rest)).
    { unfold fuel, Lexer.n, at_. cbn [Lexer.src Lexer.i].
      rewrite !str_length_app. lia. }
    exists (String.length (more_text f +:+ spell_forms rest tail) - length rest).
    split.
    { intros Hne. rewrite str_length_app. destruct tail; [discriminate|].
      simpl in Hlen. lia. }
    rewrite Hfuel. f_equal. apply bind_same.
    apply (parse_forms tail rest pre f _ [] _ tok lx Hok Hdel Hrest).
    rewrite <- Hn. f_equal. f_equal. unfold pre, form_text.
    now rewrite !str_app_assoc.
Qed.

(** ** X1: identifiers and keywords *)

(** X1.  Behind any white space, a word (a letter or underscore, then
    letters, digits and underscores) that stops before a character that
    cannot prolong it gives one token: of the keyword type when the word in
    lower case is [main], [end] or [def], of type IDENT otherwise.  The
    token carries the word as written and the position of its first
    character, and the cursor is left behind the word. *)
Theorem next_token_word (pre gap w rest : string) :
  Str.all Char.isspace gap = true ->
  word_shape w = true ->
  Lexer.ident_char (Str.head rest) = false ->
  Lexer.next_token (at_ pre (gap +:+ w +:+ rest)) =
  (Ret (mkToken
          (if String.eqb (lower w) "main" then Tok.MAIN
           else if String.eqb (lower w) "end" then Tok.END
           else if String.eqb (lower w) "def" then Tok.DEF
           else Tok.IDENT)
          (VStr w) (String.length (pre +:+ gap))),
   at_ ((pre +:+ gap) +:+ w) rest).
Proof.
  intros Hgap Hw Hrest.
  rewrite (next_token_word_at pre gap w rest Hgap Hw Hrest).
  unfold word_kind, Lexer.KEYWORDS.
  destruct (String.eqb (lower w) "main"); [reflexivity|].
  destruct (String.eqb (lower w) "end"); [reflexivity|].
  destruct (String.eqb (lower w) "def"); reflexivity.
Qed.

Lemma next_token_word_witness :
  Lexer.next_token (at_ "7" (" " +:+ "eNd" +:+ "+")) =
  (Ret (mkToken Tok.END (VStr "eNd") 2), at_ "7 eNd" "+") /\
  Lexer.next_token (at_ "" ("" +:+ "_end1" +:+ " 2")) =
  (Ret (mkToken Tok.IDENT (VStr "_end1") 0), at_ "_end1" " 2").
Proof.
  split.
  - exact (next_token_word "7" " " "eNd" "+" eq_refl eq_refl eq_refl).
  - exact (next_token_word "" "" "_end1" " 2" eq_refl eq_refl eq_refl).
Defined.

(** ** X2 to X7: the parser on the expression forms *)

(** X2.  A source that spells a sequence of expression forms, its literals
    no longer than [int] converts, compiles to
    one instruction for each form, in order, and HALT: PUSH of its value for
    a literal, the instruction of its symbol for an operator, LOAD for an
    identifier, STORE for [def] and the identifier behind it. *)
Theorem forms_bytecode (pieces : list (string * form)) (tail : string) :
  well_spaced pieces tail = true ->
  Str.all Char.isspace tail = true ->
  compile (spell_forms pieces tail) = Ret (bytecode pieces ++ [HALT]).
Proof. apply compile_forms_eof. Qed.

Lemma forms_bytecode_witness :
  compile "10 DEF x_1  x_1 2*-" =
  Ret [PUSH 10; STORE "x_1"; LOAD "x_1"; PUSH 2; MUL; SUB; HALT].
Proof.
  exact (forms_bytecode
           [("", FLex (LNum "10")); (" ", FDef "DEF" " " "x_1");
            ("  ", FName "x_1"); (" ", FLex (LNum "2"));
            ("", FLex (LOp OMul)); ("", FLex (LOp OSub))]
           "" eq_refl eq_refl).
Defined.

(** X3.  A sequence of forms between the keywords [main] and [end], in any
    case of their letters, compiles to the program of the forms alone: one
    instruction for each form, and HALT. *)
Theorem main_end_same_program (g0 m g1 e tail : string)
    (pieces : list (string * form)) :
  Str.all Char.isspace g0 = true ->
  keyword_ok Tok.MAIN m = true ->
  Lexer.ident_char (Str.head (spell_forms pieces (g1 +:+ e +:+ tail))) = false ->
  well_spaced pieces (g1 +:+ e +:+ tail) = true ->
  Str.all Char.isspace g1 = true ->
  keyword_ok Tok.END e = true ->
  Str.all Char.isspace tail = true ->
  compile (g0 +:+ m +:+ spell_forms pieces (g1 +:+ e +:+ tail))
  = Ret (bytecode pieces ++ [HALT]).
Proof.
  intros Hg0 Hm Hdelim Hsp Hg1 He Htail.
  apply keyword_ok_facts in He as [Hes Hek].
  pose proof (next_token_word_at ((g0 +:+ m) +:+ spell_forms pieces "") g1 e tail
                Hg1 Hes (head_blank_not_ident tail Htail)) as Hn.
  rewrite Hek in Hn.
  destruct (compile_main g0 m pieces _ _ _ Hg0 Hm Hdelim Hsp Hn) as (k & _ & ->).
  rewrite loop_then by reflexivity. unfold bind at 1.
  erewrite expect_hit; [|reflexivity|apply (next_token_eof _ tail Htail)].
  apply finish_at_eof.
Qed.

Lemma main_end_same_program_witness :
  compile "Main 10 3- 2 * END " = Ret [PUSH 10; PUSH 3; SUB; PUSH 2; MUL; HALT]
  /\ compile "main end" = Ret [HALT].
Proof.
  split.
  - exact (main_end_same_program "" "Main" " " "END" " "
             [(" ", FLex (LNum "10")); (" ", FLex (LNum "3"));
              ("", FLex (LOp OSub)); (" ", FLex (LNum "2"));
              (" ", FLex (LOp OMul))]
             eq_refl eq_refl eq_refl eq_refl eq_refl eq_refl eq_refl).
  - exact (main_end_same_program "" "main" " " "end" "" []
             eq_refl eq_refl eq_refl eq_refl eq_refl eq_refl eq_refl).
Defined.

Lemma spell_forms_prefix (pre : string) (pieces : list (string * form))
    (a b : string) :
  ((pre +:+ spell_forms pieces "") +:+ a) +:+ b
  = pre +:+ spell_forms pieces (a +:+ b).
Proof.
  rewrite (spell_forms_nil pieces (a +:+ b)). now rewrite !str_app_assoc.
Qed.

(** X4.  A [main] program whose forms are followed by the end of the source
    instead of [end] is refused: the syntax error says that END was
    expected and shows the EOF token, at the length of the source. *)
Theorem main_without_end (g0 m tail : string) (pieces : list (string * form)) :
  Str.all Char.isspace g0 = true ->
  keyword_ok Tok.MAIN m = true ->
  Lexer.ident_char (Str.head (spell_forms pieces tail)) = false ->
  well_spaced pieces tail = true ->
  Str.all Char.isspace tail = true ->
  compile (g0 +:+ m +:+ spell_forms pieces tail)
  = Raise (SyntaxError "Expected END"
             (mkToken Tok.EOF VNone
                (String.length (g0 +:+ m +:+ spell_forms pieces tail)))).
Proof.
  intros Hg0 Hm Hdelim Hsp Htail.
  pose proof (next_token_eof ((g0 +:+ m) +:+ spell_forms pieces "") tail Htail)
    as Hn.
  destruct (compile_main g0 m pieces _ _ _ Hg0 Hm Hdelim Hsp Hn) as (k & _ & ->).
  rewrite loop_then by reflexivity. unfold bind at 1.
  rewrite expect_miss by discriminate. cbn [fst Parser.cur Tok.name].
  do 3 f_equal.
  rewrite <- (str_app_nil_r (((g0 +:+ m) +:+ spell_forms pieces "") +:+ tail)).
  now rewrite spell_forms_prefix, str_app_nil_r, str_app_assoc.
Qed.

Lemma main_without_end_witness :
  compile "main 1 2 +" =
  Raise (SyntaxError "Expected END" (mkToken Tok.EOF VNone 10)).
Proof.
  exact (main_without_end "" "main" ""
           [(" ", FLex (LNum "1")); (" ", FLex (LNum "2")); (" ", FLex (LOp OAdd))]
           eq_refl eq_refl eq_refl eq_refl eq_refl).
Defined.

(** X5.  Without [main] before it, the keyword [end] behind the forms is
    refused, whatever follows it: the code block stops at it, and the
    syntax error says that EOF was expected and shows the END token with
    its position. *)
Theorem end_without_main (g1 e rest : string) (pieces : list (string * form)) :
  well_spaced pieces (g1 +:+ e +:+ rest) = true ->
  Str.all Char.isspace g1 = true ->
  keyword_ok Tok.END e = true ->
  Lexer.ident_char (Str.head rest) = false ->
  compile (spell_forms pieces (g1 +:+ e +:+ rest))
  = Raise (SyntaxError "Expected EOF"
             (mkToken Tok.END (VStr e) (String.length (spell_forms pieces g1)))).
Proof.
  intros Hsp Hg1 He Hrest. apply keyword_ok_facts in He as [Hes Hek].
  pose proof (next_token_word_at (spell_forms pieces "") g1 e rest Hg1 Hes Hrest)
    as Hn.
  rewrite Hek in Hn.
  destruct (compile_forms pieces _ _ _ Hsp Hn eq_refl) as (k & _ & ->).
  rewrite loop_then by reflexivity. unfold finish, bind at 1.
  rewrite expect_miss by discriminate. cbn [fst Parser.cur Tok.name].
  now rewrite <- spell_forms_nil.
Qed.

Lemma end_without_main_witness :
  compile "1 2 + end 3" =
  Raise (SyntaxError "Expected EOF" (mkToken Tok.END (VStr "end") 6)).
Proof.
  exact (end_without_main " " "end" " 3"
           [("", FLex (LNum "1")); (" ", FLex (LNum "2")); (" ", FLex (LOp OAdd))]
           eq_refl eq_refl eq_refl eq_refl).
Defined.

(** X6.  A character outside the lexical surface behind the forms is
    refused, whatever follows it: the syntax error says that the token was
    unexpected and shows the ERROR token with the character and its
    position.  The forms before it are compiled and lost. *)
Theorem stray_character_refused (g1 rest : string) (c : ascii)
    (pieces : list (string * form)) :
  well_spaced pieces (g1 +:+ String c rest) = true ->
  Str.all Char.isspace g1 = true ->
  Char.isspace c = false ->
  c <> Char.NUL ->
  word_start c = false ->
  Char.isdigit c = false ->
  operator_char c = false ->
  compile (spell_forms pieces (g1 +:+ String c rest))
  = Raise (SyntaxError "Unexpected token in expression"
             (mkToken Tok.ERROR (VStr (Str.one c))
                (String.length (spell_forms pieces g1)))).
Proof.
  intros Hsp Hg1 Hs Hnul Hw Hd Hop.
  pose proof (next_token_other_at (spell_forms pieces "") g1 rest c
                Hg1 Hs Hnul Hw Hd Hop) as Hn.
  destruct (compile_forms pieces _ _ _ Hsp Hn eq_refl) as (k & Hk & ->).
  destruct k as [|k].
  { exfalso. assert (0 < 0); [|lia]. apply Hk.
    destruct g1; reflexivity. }
  cbn. now rewrite <- spell_forms_nil.
Qed.

Lemma stray_character_refused_witness :
  compile "1 2 $ +" =
  Raise (SyntaxError "Unexpected token in expression"
           (mkToken Tok.ERROR (VStr "$") 4)).
Proof.
  apply (stray_character_refused " " " +" "$"
           [("", FLex (LNum "1")); (" ", FLex (LNum "2"))]);
    (reflexivity || discriminate).
Defined.

(** X7.  The keyword [def] at the end of the source, with no identifier
    behind it, is refused: the syntax error asks for an identifier and
    shows the EOF token, at the length of the source. *)
Theorem def_without_identifier (g1 d tail : string)
    (pieces : list (string * form)) :
  well_spaced pieces (g1 +:+ d +:+ tail) = true ->
  Str.all Char.isspace g1 = true ->
  keyword_ok Tok.DEF d = true ->
  Str.all Char.isspace tail = true ->
  compile (spell_forms pieces (g1 +:+ d +:+ tail))
  = Raise (SyntaxError "Identifier after 'def'"
             (mkToken Tok.EOF VNone
                (String.length (spell_forms pieces (g1 +:+ d +:+ tail))))).
Proof.
  intros Hsp Hg1 Hd Htail. apply keyword_ok_facts in Hd as [Hds Hdk].
  pose proof (next_token_word_at (spell_forms pieces "") g1 d tail Hg1 Hds
                (head_blank_not_ident tail Htail)) as Hn.
  rewrite Hdk in Hn.
  destruct (compile_forms pieces _ _ _ Hsp Hn eq_refl) as (k & Hk & ->).
  destruct k as [|k].
  { exfalso. assert (0 < 0); [|lia]. apply Hk.
    destruct g1; [|reflexivity]. destruct d; [discriminate Hds | reflexivity]. }
  cbn [Parser.code_block_loop]. unfold bind at 1. unfold bind at 1, gets at 1.
  cbn [Parser.cur type Parser.block_end Tok.eqb orb].
  unfold bind at 1. unfold Parser.expression, bind at 1, gets at 1.
  cbn [Parser.cur type]. unfold bind at 1.
  erewrite match_hit; [|reflexivity|apply (next_token_eof _ tail Htail)].
  cbn. do 3 f_equal.
  rewrite <- (str_app_nil_r (((spell_forms pieces "" +:+ g1) +:+ d) +:+ tail)).
  rewrite <- (str_app_nil_l (spell_forms pieces "")).
  rewrite (str_app_assoc _ g1 d), spell_forms_prefix.
  now rewrite str_app_nil_l, str_app_nil_r, str_app_assoc.
Qed.

Lemma def_without_identifier_witness :
  compile "5 def " =
  Raise (SyntaxError "Identifier after 'def'" (mkToken Tok.EOF VNone 6)).
Proof.
  exact (def_without_identifier " " "def" " " [("", FLex (LNum "5"))]
           eq_refl eq_refl eq_refl eq_refl).
Defined.

(** ** X8: the meaning of a source *)

Lemma run_forms (fs : list form) :
  forall (done : list instr) (st : list Z) (env : gmap string Z) (vm : VM.t)
         (fuel : nat),
    VM.code vm = done ++ map instr_of_form fs ++ [HALT] ->
    VM.pc vm = length done ->
    VM.stack vm = rev st ->
    VM.env vm = env ->
    length fs < fuel ->
    match sem fs st env with
    | inl e => fst (VM.run_loop fuel vm) = Raise e
    | inr (st', env') =>
        VM.run_loop fuel vm =
        (Ret tt, {| VM.code := VM.code vm; VM.pc := length (VM.code vm);
                    VM.stack := rev st'; VM.env := env' |})
    end.
Proof.
  induction fs as [|f fs IH]; intros done st env vm fuel Hc Hp Hs He Hf;
    (destruct fuel as [|fuel]; [simpl in Hf; lia|]);
    cbn [map app] in Hc;
    destruct (fetch_at vm done _ _ Hc Hp) as [Hfetch Hpc];
    pose proof (step_fetch vm) as Hstep; rewrite Hfetch in Hstep.
  - destruct (run_loop_last fuel vm _ _ Hpc Hstep) as [-> _]; [discriminate|].
    cbn [sem]. f_equal. destruct vm as [code pc stack env0]. cbn in *.
    subst. rewrite length_app. reflexivity.
  - set (vm1 := VM.set_pc (VM.pc vm + 1) vm) in *.
    assert (Hgo : forall s st1 env1 vm2,
      VM.step vm = (Ret false, vm2) ->
      vm2 = VM.set_env env1 (after_fetch s vm) ->
      s = rev st1 ->
      match sem fs st1 env1 with
      | inl e => fst (VM.run_loop (S fuel) vm) = Raise e
      | inr (st', env') =>
          VM.run_loop (S fuel) vm =
          (Ret tt, {| VM.code := VM.code vm; VM.pc := length (VM.code vm);
                      VM.stack := rev st'; VM.env := env' |})
      end).
    { intros s st1 env1 vm2 Hs1 -> Hrev.
      destruct (run_loop_next fuel vm _ Hpc Hs1) as [-> _].
      apply (IH (done ++ [instr_of_form f]) st1 env1
               (VM.set_env env1 (after_fetch s vm)) fuel).
      - cbn. now rewrite Hc, <- app_assoc.
      - cbn. rewrite length_app. simpl. lia.
      - exact Hrev.
      - reflexivity.
      - simpl in Hf. lia. }
    assert (Hstop : forall e vm2,
      VM.step vm = (Raise e, vm2) -> fst (VM.run_loop (S fuel) vm) = Raise e).
    { intros e vm2 Hs1.
      now destruct (run_loop_last fuel vm _ _ Hpc Hs1) as [-> _]. }
    destruct f as [[digits | op] | name | kw gap name];
      cbn [sem instr_of_form instr_of] in *.
    + apply (Hgo (VM.stack vm ++ [decimal digits]) (decimal digits :: st) env
               (after_fetch (VM.stack vm ++ [decimal digits]) vm)).
      * exact Hstep.
      * destruct vm; cbn in *; now subst.
      * now rewrite Hs.
    + destruct st as [|b [|a st0]].
      * apply (Hstop _ vm1). rewrite Hstep.
        destruct op; unfold VM.dispatch, bind;
          rewrite (pop2_underflow vm1) by (cbn; rewrite Hs; simpl; lia);
          reflexivity.
      * apply (Hstop _ vm1). rewrite Hstep.
        destruct op; unfold VM.dispatch, bind;
          rewrite (pop2_underflow vm1) by (cbn; rewrite Hs; simpl; lia);
          reflexivity.
      * assert (Hst : VM.stack vm1 = rev st0 ++ [a; b]).
        { cbn. rewrite Hs. cbn [rev]. now rewrite <- app_assoc. }
        destruct (apply_op op a b) as [c|] eqn:Hop.
        -- apply (Hgo (rev st0 ++ [c]) (c :: st0) env
                    (after_fetch (rev st0 ++ [c]) vm)); [| |reflexivity].
           ++ rewrite Hstep.
              destruct op; cbn [apply_op] in Hop; unfold VM.dispatch, bind;
                rewrite (pop2_ok vm1 _ a b Hst); cbn [fst snd];
                try (injection Hop as <-; reflexivity).
              destruct (b =? 0)%Z; [discriminate Hop|].
              injection Hop as <-. reflexivity.
           ++ destruct vm; cbn in *; now subst.
        -- apply (Hstop _ (after_fetch (rev st0) vm)). rewrite Hstep.
           destruct op; cbn [apply_op] in Hop; try discriminate Hop.
           unfold VM.dispatch, bind. rewrite (pop2_ok vm1 _ a b Hst).
           cbn [fst snd]. destruct (b =? 0)%Z; [reflexivity | discriminate Hop].
    + destruct (env !! name) as [v|] eqn:Hv.
      * apply (Hgo (VM.stack vm ++ [v]) (v :: st) env
                 (after_fetch (VM.stack vm ++ [v]) vm)).
        -- rewrite Hstep. unfold VM.dispatch, bind, gets.
           change (VM.env vm1) with (VM.env vm). now rewrite He, Hv.
        -- destruct vm; cbn in *; now subst.
        -- now rewrite Hs.
      * apply (Hstop _ vm1). rewrite Hstep. unfold VM.dispatch, bind, gets.
        change (VM.env vm1) with (VM.env vm). now rewrite He, Hv.
    + destruct st as [|v st0].
      * apply (Hstop _ vm1). rewrite Hstep. unfold VM.dispatch, bind.
        rewrite (pop1_underflow vm1) by (cbn; now rewrite Hs). reflexivity.
      * apply (Hgo (rev st0) st0 (<[name := v]> env)
                 (VM.set_env (<[name := v]> env) (after_fetch (rev st0) vm)));
          [|reflexivity|reflexivity].
        rewrite Hstep. unfold VM.dispatch, bind.
        rewrite (pop1_ok vm1 (rev st0) v) by (cbn; now rewrite Hs).
        cbn. now rewrite He.
Qed.

(** X8.  The outcome of [compile_and_run] on a source that spells a
    sequence of expression forms is the meaning of the sequence on the
    empty stack and environment: the failure it ends in is raised, with its
    message; otherwise the run returns with the stack it leaves, bottom
    first, the environment it leaves, and [pc] behind the HALT. *)
Theorem forms_meaning (pieces : list (string * form)) (tail : string) :
  well_spaced pieces tail = true ->
  Str.all Char.isspace tail = true ->
  match sem (map snd pieces) [] ∅ with
  | inl e => compile_and_run (spell_forms pieces tail) = Raise e
  | inr (st, env) =>
      compile_and_run (spell_forms pieces tail) =
      Ret {| VM.code := bytecode pieces ++ [HALT];
             VM.pc := S (length pieces);
             VM.stack := rev st;
             VM.env := env |}
  end.
Proof.
  intros Hsp Htail. unfold compile_and_run.
  rewrite (compile_forms_eof pieces tail Hsp Htail).
  set (code := bytecode pieces ++ [HALT]).
  assert (Hlen : length code = S (length pieces)).
  { unfold code, bytecode. rewrite length_app, length_map. simpl. lia. }
  assert (Hrun := run_forms (map snd pieces) [] [] ∅ (VM.init code)
                    (length code - 0)).
  unfold VM.run. cbn [VM.code VM.pc VM.init] in *.
  specialize (Hrun ltac:(unfold code, bytecode; now rewrite map_map)
                eq_refl eq_refl eq_refl ltac:(rewrite length_map; lia)).
  destruct (sem (map snd pieces) [] ∅) as [e | [st env]].
  - destruct (VM.run_loop _ _) as [[u| |] vm']; cbn [fst] in Hrun;
      congruence.
  - now rewrite Hrun, Hlen.
Qed.

Lemma forms_meaning_witness :
  compile_and_run "7 def a 2 a - def b" =
  Ret {| VM.code := [PUSH 7; STORE "a"; PUSH 2; LOAD "a"; SUB; STORE "b"; HALT];
         VM.pc := 7;
         VM.stack := [];
         VM.env := <["b" := (-5)%Z]> (<["a" := 7%Z]> ∅) |}
  /\ compile_and_run "1 b" = Raise (NameError "Undefined identifier 'b'").
Proof.
  split.
  - exact (forms_meaning
             [("", FLex (LNum "7")); (" ", FDef "def" " " "a");
              (" ", FLex (LNum "2")); (" ", FName "a"); (" ", FLex (LOp OSub));
              (" ", FDef "def" " " "b")]
             "" eq_refl eq_refl).
  - exact (forms_meaning [("", FLex (LNum "1")); (" ", FName "b")] ""
             eq_refl eq_refl).
Defined.

(** ** X9: expression trees *)

(** X9.  For an expression tree whose evaluation, with floor division,
    gives [v] (no divisor is zero), every source that spells the postfix
    form of the tree compiles and runs to the end and leaves [v] alone on
    the stack; the environment stays empty. *)
Theorem expression_tree_value (e : expr) (v : Z)
    (pieces : list (string * lexeme)) (tail : string) :
  map snd pieces = postfix e ->
  spaced false pieces = true ->
  Str.all Char.isspace tail = true ->
  eval e = Some v ->
  exists vm : VM.t,
    compile_and_run (spell pieces tail) = Ret vm /\
    VM.stack vm = [v] /\ VM.env vm = ∅.
Proof.
  intros Hpost Hsp Htail He. unfold compile_and_run.
  rewrite (compile_spell pieces tail Hsp Htail).
  set (code := map (fun p => instr_of (snd p)) pieces ++ [HALT]).
  assert (Hr : rpn (map snd pieces) [] = Some [v]).
  { rewrite Hpost, <- (app_nil_r (postfix e)). now rewrite (rpn_postfix e v). }
  destruct (run_lexemes (map snd pieces) [] [] [v] (VM.init code)
              (length code - 0)) as (vm' & Hrun & Hst & Henv);
    try reflexivity; try assumption.
  - unfold code. now rewrite map_map.
  - unfold code. rewrite length_app, !length_map. simpl. lia.
  - unfold VM.run. cbn [VM.code VM.pc VM.init]. rewrite Hrun.
    exists vm'. now repeat split.
Qed.

Lemma expression_tree_value_witness :
  exists vm : VM.t,
    compile_and_run "2 9 - 10 3 / *" = Ret vm /\
    VM.stack vm = [-21]%Z /\ VM.env vm = ∅.
Proof.
  exact (expression_tree_value
           (Bin OMul (Bin OSub (Lit "2") (Lit "9")) (Bin ODiv (Lit "10") (Lit "3")))
           (-21)%Z
           [("", LNum "2"); (" ", LNum "9"); (" ", LOp OSub); (" ", LNum "10");
            (" ", LNum "3"); (" ", LOp ODiv); (" ", LOp OMul)]
           "" eq_refl eq_refl eq_refl eq_refl).
Defined.

(** ** X10 to X13: the machine on any program *)

Lemma stored_in (code : list instr) (x : string) :
  In (STORE x) code -> x ∈ stored code.
Proof.
  induction code as [|ins code IH]; [intros []|].
  intros [-> | Hin].
  - cbn [stored]. apply elem_of_union_l. now apply elem_of_singleton.
  - specialize (IH Hin). destruct ins; cbn [stored]; try exact IH.
    now apply elem_of_union_r.
Qed.

Lemma fetch_in (vm : VM.t) :
  VM.pc vm < length (VM.code vm) -> In (VM.fetch vm) (VM.code vm).
Proof. intros H. now apply nth_In. Qed.

Lemma fetch_in_or_halt (vm : VM.t) :
  In (VM.fetch vm) (VM.code vm) \/ VM.fetch vm = HALT.
Proof.
  unfold VM.fetch.
  destruct (nth_in_or_default (VM.pc vm) (VM.code vm) HALT); auto.
Qed.

Lemma step_env_frame (vm : VM.t) (x : string) :
  VM.fetch vm <> STORE x ->
  VM.env (snd (VM.step vm)) !! x = VM.env vm !! x.
Proof.
  intros Hf. rewrite step_fetch. set (vm1 := VM.set_pc (VM.pc vm + 1) vm).
  assert (H2 : VM.env (snd (VM.pop2 vm1)) = VM.env vm).
  { destruct (short_or_two (VM.stack vm)) as [Hlen | (s & a & b & Hs)].
    - now rewrite (pop2_underflow vm1 Hlen).
    - now rewrite (pop2_ok vm1 s a b Hs). }
  destruct (VM.fetch vm) eqn:Hfetch; unfold VM.dispatch, bind; try reflexivity.
  - unfold gets. destruct (VM.env vm1 !! arg); reflexivity.
  - destruct (VM.stack vm) as [|a s _] eqn:Hs using rev_ind.
    + now rewrite (pop1_underflow vm1 Hs).
    + rewrite (pop1_ok vm1 s a Hs). cbn.
      apply lookup_insert_ne. congruence.
  - destruct (VM.pop2 vm1) as [[[a b]| |] v]; cbn in *; now rewrite H2.
  - destruct (VM.pop2 vm1) as [[[a b]| |] v]; cbn in *; now rewrite H2.
  - destruct (VM.pop2 vm1) as [[[a b]| |] v]; cbn in *; now rewrite H2.
  - destruct (VM.pop2 vm1) as [[[a b]| |] v]; cbn in *; try now rewrite H2.
    destruct (b =? 0)%Z; cbn; now rewrite H2.
Qed.

(** X10.  A run changes the environment at stored names only: a name that
    no STORE of the program names has after the run, whether it returned or
    raised, the binding or the absence it had before. *)
Theorem run_keeps_unstored (vm : VM.t) (x : string) :
  x ∉ stored (VM.code vm) ->
  VM.env (snd (VM.run vm)) !! x = VM.env vm !! x.
Proof.
  intros Hx. unfold VM.run. generalize (length (VM.code vm) - VM.pc vm).
  intros fuel. revert vm Hx.
  induction fuel as [|fuel IH]; intros vm Hx; cbn [VM.run_loop];
    destruct (VM.pc vm <? length (VM.code vm)) eqn:Hpc; try reflexivity.
  assert (Hf : VM.fetch vm <> STORE x).
  { intros Hf. apply Hx, stored_in. rewrite <- Hf. apply fetch_in.
    now apply Nat.ltb_lt. }
  pose proof (step_env_frame vm x Hf) as Hstep.
  destruct (step_code_pc vm) as [Hcode _].
  unfold bind. destruct (VM.step vm) as [[[|]| |] vm']; cbn [snd] in *;
    try exact Hstep.
  rewrite IH; [exact Hstep | now rewrite Hcode].
Qed.

Lemma run_keeps_unstored_witness :
  VM.env (snd (VM.run (machine [PUSH 2; STORE "x"; ADD] [] {[ "y" := 1%Z ]})))
  !! "y" = Some 1%Z.
Proof.
  exact (run_keeps_unstored
           (machine [PUSH 2; STORE "x"; ADD] [] {[ "y" := 1%Z ]}) "y"
           ltac:(vm_compute; intros H; discriminate H)).
Defined.

Lemma run_loop_count (fuel : nat) :
  forall vm : VM.t,
    VM.code (snd (VM.run_loop fuel vm)) = VM.code vm /\
    VM.pc (snd (VM.run_loop fuel vm)) = VM.pc vm + iterations fuel vm /\
    iterations fuel vm <= fuel.
Proof.
  induction fuel as [|fuel IH]; intros vm; cbn [VM.run_loop iterations];
    destruct (VM.pc vm <? length (VM.code vm)) eqn:Hpc; cbn [snd];
    try (repeat split; lia).
  destruct (step_code_pc vm) as [Hcode Hpc'].
  unfold bind. destruct (VM.step vm) as [[[|]| |] vm']; cbn [snd] in *;
    try (repeat split; (assumption || lia)).
  destruct (IH vm') as (Hc & Hp & Hi). rewrite Hc, Hp, Hcode, Hpc'.
  repeat split; lia.
Qed.

(** X11.  Whatever the program and the state it is started in, a run
    returns or raises after at most [len(code) - pc] iterations of the
    loop; it leaves the program as it is, and [pc] has grown by the number
    of iterations. *)
Theorem run_terminates (vm : VM.t) :
  fst (VM.run vm) <> Timeout /\
  VM.code (snd (VM.run vm)) = VM.code vm /\
  VM.pc (snd (VM.run vm)) = VM.pc vm + dispatch_steps vm /\
  dispatch_steps vm <= length (VM.code vm) - VM.pc vm.
Proof.
  split; [apply run_no_timeout|]. unfold VM.run, dispatch_steps.
  apply run_loop_count.
Qed.

(** X12.  STORE of a name and then LOAD of the same name leave the stack
    as it was, with the stored value on top, and the name bound to that
    value, whatever it was bound to before. *)
Theorem store_then_load (vm : VM.t) (x : string) (s : list Z) (v : Z) :
  VM.fetch vm = STORE x ->
  nth (VM.pc vm + 1) (VM.code vm) HALT = LOAD x ->
  VM.stack vm = s ++ [v] ->
  exists vm1 vm2 : VM.t,
    VM.step vm = (Ret false, vm1) /\
    VM.step vm1 = (Ret false, vm2) /\
    VM.stack vm2 = s ++ [v] /\
    VM.env vm2 = <[x := v]> (VM.env vm) /\
    VM.pc vm2 = VM.pc vm + 2.
Proof.
  intros Hf Hnext Hs.
  set (vm1 := VM.set_env (<[x := v]> (VM.env vm)) (after_fetch s vm)).
  assert (H1 : VM.step vm = (Ret false, vm1)).
  { rewrite step_fetch, Hf. unfold VM.dispatch, bind.
    rewrite (pop1_ok (VM.set_pc (VM.pc vm + 1) vm) s v Hs). reflexivity. }
  exists vm1, (after_fetch (s ++ [v]) vm1). split; [exact H1|].
  split; [|cbn; repeat split; lia].
  rewrite step_fetch. unfold VM.fetch. cbn [vm1 VM.pc VM.code VM.set_env after_fetch
    VM.set_stack VM.set_pc]. rewrite Hnext.
  unfold VM.dispatch, bind, gets. cbn [VM.env VM.set_pc].
  change (VM.env vm1) with (<[x := v]> (VM.env vm)).
  rewrite lookup_insert_eq. reflexivity.
Qed.

Lemma store_then_load_witness :
  exists vm1 vm2 : VM.t,
    VM.step (machine [STORE "x"; LOAD "x"] [4; 9]%Z {[ "x" := 1%Z ]})
    = (Ret false, vm1) /\
    VM.step vm1 = (Ret false, vm2) /\
    VM.stack vm2 = [4; 9]%Z /\
    VM.env vm2 = <["x" := 9%Z]> {[ "x" := 1%Z ]} /\
    VM.pc vm2 = 2.
Proof.
  exact (store_then_load (machine [STORE "x"; LOAD "x"] [4; 9]%Z {[ "x" := 1%Z ]})
           "x" [4%Z] 9%Z eq_refl eq_refl eq_refl).
Defined.

Lemma step_raised_by (vm vm' : VM.t) (e : exn) :
  VM.step vm = (Raise e, vm') -> raised_by (VM.fetch vm) e.
Proof.
  rewrite step_fetch. set (vm1 := VM.set_pc (VM.pc vm + 1) vm).
  assert (H2 : forall r v, VM.pop2 vm1 = (Raise r, v) ->
                 r = RuntimeError "Stack underflow: need two operands").
  { intros r v. destruct (short_or_two (VM.stack vm)) as [Hlen | (s & a & b & Hs)].
    - rewrite (pop2_underflow vm1 Hlen). now intros [= <- _].
    - rewrite (pop2_ok vm1 s a b Hs). discriminate. }
  destruct (VM.fetch vm); unfold VM.dispatch, bind; cbn [raised_by];
    try discriminate.
  - unfold gets. destruct (VM.env vm1 !! arg); [discriminate|].
    now intros [= <- _].
  - destruct (VM.stack vm) as [|a s _] eqn:Hs using rev_ind.
    + rewrite (pop1_underflow vm1 Hs). now intros [= <- _].
    + rewrite (pop1_ok vm1 s a Hs). discriminate.
  - destruct (VM.pop2 vm1) as [[[a b]| |] v] eqn:Hp; try discriminate.
    intros [= <- _]. now apply (H2 _ v).
  - destruct (VM.pop2 vm1) as [[[a b]| |] v] eqn:Hp; try discriminate.
    intros [= <- _]. now apply (H2 _ v).
  - destruct (VM.pop2 vm1) as [[[a b]| |] v] eqn:Hp; try discriminate.
    intros [= <- _]. now apply (H2 _ v).
  - destruct (VM.pop2 vm1) as [[[a b]| |] v] eqn:Hp; try discriminate.
    + cbn [fst snd]. destruct (b =? 0)%Z; [|discriminate].
      intros [= <- _]. now right.
    + intros [= <- _]. left. now apply (H2 _ v).
Qed.

(** X13.  On a program made of the eight opcodes that the parser emits, a
    failure of a run is that of an instruction of the program: the
    undefined-identifier failure with the name of one of its LOADs, the
    one-operand underflow of a STORE, the two-operand underflow of an
    arithmetic instruction, the division by zero of a DIV.  Such a program
    without DIV never raises the division by zero, and PUSH and HALT raise
    nothing.  (A pair with another opcode is not an [instr]: the failure
    of the last branch of the dispatch is outside this statement.) *)
Theorem run_failure_source (vm : VM.t) (e : exn) :
  fst (VM.run vm) = Raise e ->
  exists ins : instr, In ins (VM.code vm) /\ raised_by ins e.
Proof.
  unfold VM.run. generalize (length (VM.code vm) - VM.pc vm). intros fuel.
  revert vm. induction fuel as [|fuel IH]; intros vm; cbn [VM.run_loop];
    destruct (VM.pc vm <? length (VM.code vm)) eqn:Hpc; try discriminate.
  apply Nat.ltb_lt in Hpc. unfold bind.
  destruct (step_code_pc vm) as [Hcode _].
  destruct (VM.step vm) as [[[|]| |] vm'] eqn:Hstep; cbn [fst snd] in *;
    try discriminate.
  - intros H. rewrite <- Hcode. now apply IH.
  - intros [= <-]. exists (VM.fetch vm). split; [now apply fetch_in|].
    now apply (step_raised_by vm vm').
Qed.

Lemma run_failure_source_witness :
  exists ins : instr,
    In ins [PUSH 1; PUSH 0; DIV; HALT] /\
    raised_by ins (ZeroDivisionError "Division by zero").
Proof.
  exact (run_failure_source (VM.init [PUSH 1; PUSH 0; DIV; HALT])
           (ZeroDivisionError "Division by zero") eq_refl).
Defined.

(** ** X14: the failures of the parser *)

Lemma raises_bind {A B} (m : M Parser.t A) (k : A -> M Parser.t B) P :
  raises m P -> (forall a, raises (k a) P) -> raises (bind m k) P.
Proof.
  intros Hm Hk p e p'. unfold bind.
  destruct (m p) as [[a| |] p1] eqn:H1; [apply Hk | | discriminate].
  intros [= <- _]. now apply (Hm p _ p1).
Qed.

Lemma raises_never {A} (m : M Parser.t A) P :
  (forall p e p', m p <> (Raise e, p')) -> raises m P.
Proof. intros H p e p' Hm. now apply H in Hm. Qed.

Lemma next_token_raises (l l' : Lexer.t) (e : exn) :
  Lexer.next_token l = (Raise e, l') -> lexical_failure e.
Proof.
  unfold Lexer.next_token. cbv zeta. intros Hn.
  repeat match type of Hn with
         | (if ?c then _ else _) = _ => destruct c
         | match Lexer.KEYWORDS ?s with Some _ => _ | None => _ end = _ =>
             destruct (Lexer.KEYWORDS s)
         | match int ?s with Some _ => _ | None => _ end = _ =>
             destruct (int s) eqn:?
         | (let (_, _) := Lexer.advance _ in _) = _ => cbn [Lexer.advance] in Hn
         end; try discriminate Hn.
  injection Hn as <- _. now eexists.
Qed.

Lemma raises_match (typ : Tok.kind) : raises (Parser.match_ typ) parse_failure.
Proof.
  intros p e p'. rewrite match_spec. destruct (Tok.eqb _ _); [|discriminate].
  destruct (Lexer.next_token (Parser.lexer p)) as [[tok| |] lx] eqn:Hn;
    try discriminate.
  intros [= <- _]. left. now apply (next_token_raises _ _ _ Hn).
Qed.

Lemma raises_error {A} (msg : string) :
  In msg ["Expected END"; "Expected EOF"; "Identifier after 'def'";
          "Unexpected token in expression"] ->
  raises (@Parser.error A msg) parse_failure.
Proof.
  intros Hin p e p' [= <- _]. right. now exists msg, (Parser.cur p).
Qed.

Lemma raises_expect (typ : Tok.kind) :
  typ = Tok.END \/ typ = Tok.EOF -> raises (Parser.expect typ) parse_failure.
Proof.
  intros Ht. apply raises_bind; [apply raises_match|].
  intros [|]; cbn [negb]; [apply raises_never; discriminate|].
  apply raises_error. destruct Ht as [-> | ->]; cbn; auto.
Qed.

Lemma raises_pure {A} (m : M Parser.t A) P :
  (forall p, exists a p', m p = (Ret a, p')) -> raises m P.
Proof.
  intros H p e p' Hm. destruct (H p) as (a & q & Hq). congruence.
Qed.

Lemma raises_emit (ins : instr) P : raises (Parser.emit ins) P.
Proof. apply raises_pure. intros p. now eexists _, _. Qed.

Lemma raises_gets {A} (f : Parser.t -> A) P : raises (gets f) P.
Proof. apply raises_pure. intros p. now eexists _, _. Qed.

Lemma raises_expression : raises Parser.expression parse_failure.
Proof.
  assert (Hme : forall typ ins,
            raises (exec Parser.match_ typ; Parser.emit ins)%py parse_failure).
  { intros typ ins. apply raises_bind; [apply raises_match|].
    intros _. apply raises_emit. }
  unfold Parser.expression. apply raises_bind; [apply raises_gets|]. intros c.
  destruct (type c); try apply Hme;
    try (apply raises_error; cbn; tauto).
  apply raises_bind; [apply raises_match|]. intros _.
  apply raises_bind; [apply raises_gets|]. intros c'.
  destruct (negb _); [apply raises_error; cbn; tauto | apply Hme].
Qed.

Lemma raises_code_block_loop (fuel : nat) :
  raises (Parser.code_block_loop fuel) parse_failure.
Proof.
  induction fuel as [|fuel IH]; cbn [Parser.code_block_loop];
    (apply raises_bind; [apply raises_gets|]); intros c;
    destruct (Parser.block_end (type c));
    try (apply raises_never; discriminate).
  apply raises_bind; [apply raises_expression | intros _; exact IH].
Qed.

Lemma raises_code_block : raises Parser.code_block parse_failure.
Proof. intros p e p'. unfold Parser.code_block. apply raises_code_block_loop. Qed.

Lemma raises_program : raises Parser.program parse_failure.
Proof.
  unfold Parser.program. apply raises_bind; [apply raises_gets|]. intros c.
  apply raises_bind.
  - destruct (Tok.eqb _ _); [|apply raises_code_block].
    apply raises_bind; [apply raises_match|]. intros _.
    apply raises_bind; [apply raises_code_block|]. intros _.
    apply raises_expect. now left.
  - intros _. apply raises_bind; [apply raises_expect; now right|]. intros _.
    apply raises_bind; [apply raises_emit | intros _; apply raises_gets].
Qed.

(** X14.  When the compilation of a source fails, the failure is the
    [ValueError] of a literal that [int] rejects, or a syntax error with
    one of four messages: END expected, EOF expected, identifier expected
    behind [def], unexpected token.  The lexer and the parser raise
    nothing else. *)
Theorem compile_failures (src : string) (e : exn) :
  compile src = Raise e -> lexical_failure e \/ syntax_failure e.
Proof.
  unfold compile, Parser.init.
  destruct (Lexer.next_token (Lexer.init src)) as [[tok| |] lx] eqn:Hn;
    try discriminate.
  - destruct (Parser.program _) as [r p'] eqn:Hp. cbn [fst]. intros ->.
    now apply raises_program in Hp.
  - intros [= <-]. left. now apply (next_token_raises _ _ _ Hn).
Qed.

Lemma compile_failures_witness :
  lexical_failure (ValueError (Str.one "178"%char)) \/
  syntax_failure (ValueError (Str.one "178"%char)).
Proof.
  exact (compile_failures (Str.one "178"%char) _ eq_refl).
Defined.

(** ** X15 to X19: the lexer at any cursor *)

Lemma advance_while_fixed (p : ascii -> bool) (l : Lexer.t) :
  p (Lexer.peek l) = false -> Lexer.advance_while p l = l.
Proof.
  intros Hp. unfold Lexer.advance_while.
  destruct (Lexer.n l - Lexer.i l); cbn [Lexer.advance_loop];
    [reflexivity | now rewrite Hp].
Qed.

(** X15.  The EOF token is final: once [next_token] has returned it, every
    further call returns the same token, with the same position, and leaves
    the lexer as it is. *)
Theorem eof_is_final (l l' : Lexer.t) (tok : Token) :
  Lexer.next_token l = (Ret tok, l') ->
  type tok = Tok.EOF ->
  Lexer.next_token l' = (Ret tok, l').
Proof.
  unfold Lexer.next_token at 1. cbv zeta.
  set (l1 := Lexer.consume_ws l).
  destruct (Ascii.eqb (Lexer.peek l1) Char.NUL) eqn:Hnul.
  - intros [= <- <-] _. unfold Lexer.next_token. cbv zeta.
    assert (Hfix : Lexer.consume_ws l1 = l1).
    { apply advance_while_fixed. apply Ascii.eqb_eq in Hnul. now rewrite Hnul. }
    now rewrite Hfix, Hnul.
  - destruct (Char.isalpha (Lexer.peek l1) || Ascii.eqb (Lexer.peek l1) "_").
    { destruct (Lexer.KEYWORDS _) as [kw|] eqn:Hkw; intros [= <- _]; cbn [type].
      - apply keyword_kinds in Hkw as [-> | [-> | ->]]; discriminate.
      - discriminate. }
    destruct (Char.isdigit (Lexer.peek l1)).
    { destruct (int _); [|discriminate]. intros [= <- _]. discriminate. }
    cbn [Lexer.advance]. intros H Ht.
    destruct (Ascii.eqb (Lexer.peek l1) "+");
      [injection H as <- _; discriminate Ht|].
    destruct (Ascii.eqb (Lexer.peek l1) "-");
      [injection H as <- _; discriminate Ht|].
    destruct (Ascii.eqb (Lexer.peek l1) "*");
      [injection H as <- _; discriminate Ht|].
    destruct (Ascii.eqb (Lexer.peek l1) "/");
      injection H as <- _; discriminate Ht.
Qed.

Lemma eof_is_final_witness :
  Lexer.next_token {| Lexer.src := "7  "; Lexer.i := 3 |}
  = (Ret (mkToken Tok.EOF VNone 3), {| Lexer.src := "7  "; Lexer.i := 3 |}).
Proof.
  exact (eof_is_final {| Lexer.src := "7  "; Lexer.i := 1 |} _ _ eq_refl eq_refl).
Defined.

Lemma next_token_src (l l' : Lexer.t) (r : result Token) :
  Lexer.next_token l = (r, l') -> Lexer.src l' = Lexer.src l.
Proof.
  assert (Hw : forall p l0, Lexer.src (Lexer.advance_while p l0) = Lexer.src l0).
  { intros p l0. unfold Lexer.advance_while. apply advance_loop_facts. }
  unfold Lexer.next_token. cbv zeta. intros Hn.
  repeat match type of Hn with
         | (if ?c then _ else _) = _ => destruct c
         | match Lexer.KEYWORDS ?s with Some _ => _ | None => _ end = _ =>
             destruct (Lexer.KEYWORDS s)
         | match int ?s with Some _ => _ | None => _ end = _ =>
             destruct (int s)
         | (let (_, _) := Lexer.advance _ in _) = _ => cbn [Lexer.advance] in Hn
         end;
    injection Hn as _ <-; cbn [Lexer.src]; unfold Lexer.consume_ws;
    now rewrite ?Hw.
Qed.

(** X16.  A call of [next_token] with the cursor inside the source leaves
    the source as it is and the cursor inside it, never moves the cursor
    back, and moves it forward whenever it returns a token other than
    EOF. *)
Theorem lexer_progress (l l' : Lexer.t) (r : result Token) :
  Lexer.next_token l = (r, l') ->
  Lexer.i l <= Lexer.n l ->
  Lexer.src l' = Lexer.src l /\
  Lexer.i l <= Lexer.i l' <= Lexer.n l /\
  (forall tok, r = Ret tok -> type tok <> Tok.EOF -> Lexer.i l < Lexer.i l').
Proof.
  intros Hn Hin.
  destruct (next_token_facts l l' r Hn Hin) as (_ & Hn' & Hi' & Hle & Hmv).
  split; [now apply (next_token_src l l' r)|]. split; [lia|].
  intros tok Hr Ht. destruct (Hmv tok Hr); [contradiction | assumption].
Qed.

Lemma lexer_progress_witness :
  Lexer.i (Lexer.init "  ab+") <
  Lexer.i {| Lexer.src := "  ab+"; Lexer.i := 4 |}.
Proof.
  exact (proj2 (proj2 (lexer_progress (Lexer.init "  ab+")
                         {| Lexer.src := "  ab+"; Lexer.i := 4 |}
                         (Ret (mkToken Tok.IDENT (VStr "ab") 2))
                         eq_refl ltac:(vm_compute; lia)))
           _ eq_refl ltac:(discriminate)).
Defined.

Lemma all_app (p : ascii -> bool) (a b : string) :
  Str.all p (a +:+ b) = Str.all p a && Str.all p b.
Proof.
  induction a as [|c a IH]; [reflexivity|].
  rewrite str_app_cons. cbn [Str.all]. now rewrite IH, andb_assoc.
Qed.

Lemma split_at (s : string) :
  forall k : nat, k <= String.length s ->
    exists pre rest, s = pre +:+ rest /\ String.length pre = k.
Proof.
  induction s as [|c s IH]; intros k Hk.
  - exists "", "". simpl in Hk. split; [reflexivity | simpl; lia].
  - destruct k as [|k]; [now exists "", (String c s)|].
    destruct (IH k) as (pre & rest & -> & Hlen); [simpl in Hk; lia|].
    exists (String c pre), rest. split; [reflexivity | simpl; lia].
Qed.

Lemma lexer_at (l : Lexer.t) :
  Lexer.i l <= Lexer.n l -> exists pre rest, l = at_ pre rest.
Proof.
  destruct l as [s k]. unfold Lexer.n. cbn. intros Hk.
  destruct (split_at s k Hk) as (pre & rest & -> & <-). now exists pre, rest.
Qed.

(** The longest run of a class at the start of a string. *)
Lemma span (p : ascii -> bool) (s : string) :
  p Char.NUL = false ->
  exists run rest,
    s = run +:+ rest /\ Str.all p run = true /\ p (Str.head rest) = false.
Proof.
  intros Hnul. induction s as [|c s IH].
  - now exists "", "".
  - destruct (p c) eqn:Hc.
    + destruct IH as (run & rest & -> & Hrun & Hrest).
      exists (String c run), rest. cbn [Str.all]. now rewrite Hc, Hrun.
    + now exists "", (String c s).
Qed.

Lemma not_superscript (c : ascii) :
  Char.isdigit c = true -> superscript c = false -> Char.isdecimal c = true.
Proof.
  unfold superscript. intros ->. cbn [andb]. now intros ->%negb_false_iff.
Qed.

Lemma plain_digits (run : string) :
  Str.all Char.isdigit run = true ->
  Str.all (fun c => negb (superscript c)) run = true ->
  Str.all Char.isdecimal run = true.
Proof.
  induction run as [|c r IH]; [reflexivity|]. cbn [Str.all].
  intros H1 H2. apply andb_prop in H1 as [Hc H1]. apply andb_prop in H2 as [Hs H2].
  apply negb_true_iff in Hs. now rewrite (not_superscript c Hc Hs), IH.
Qed.

Lemma runs_within_run (run rest : string) :
  forall k : nat,
    Str.all Char.isdigit run = true ->
    is_empty run = false ->
    runs_within k (run +:+ rest) = true ->
    (N.of_nat (k + String.length run) <= MAX_STR_DIGITS)%N.
Proof.
  induction run as [|c r IH]; intros k Hall Hne Hw; [discriminate Hne|].
  cbn [Str.all] in Hall. apply andb_prop in Hall as [Hc Hall].
  rewrite str_app_cons in Hw. cbn [runs_within] in Hw. rewrite Hc in Hw.
  apply andb_prop in Hw as [Hk Hw]. apply N.leb_le in Hk.
  destruct r as [|c' r'].
  - simpl. replace (k + 1) with (S k) by lia. exact Hk.
  - specialize (IH (S k) Hall eq_refl Hw). simpl in *.
    replace (k + S (S (String.length r'))) with (S (k + S (String.length r')))
      by lia.
    exact IH.
Qed.

Lemma runs_within_skip (pre s : string) :
  forall k : nat,
    runs_within k (pre +:+ s) = true -> exists k', runs_within k' s = true.
Proof.
  induction pre as [|c pre IH]; intros k Hw; [now exists k|].
  rewrite str_app_cons in Hw. cbn [runs_within] in Hw.
  destruct (Char.isdigit c); [|now apply (IH 0)].
  apply andb_prop in Hw as [_ Hw]. now apply (IH (S k)).
Qed.

(** X17.  On a source without the superscript digits one, two and three
    and without a run of digits longer than [int] converts, [next_token]
    never raises: from any cursor inside the source it returns a token. *)
Theorem next_token_returns (l : Lexer.t) :
  Lexer.i l <= Lexer.n l ->
  Str.all (fun c => negb (superscript c)) (Lexer.src l) = true ->
  runs_within 0 (Lexer.src l) = true ->
  exists tok l', Lexer.next_token l = (Ret tok, l').
Proof.
  intros Hin Hsrc Hruns. destruct (lexer_at l Hin) as (pre & rest & ->).
  destruct (span Char.isspace rest eq_refl) as (ws & rest1 & -> & Hws & Hrest1).
  unfold Lexer.next_token. cbv zeta.
  rewrite (consume_ws_at pre ws rest1 Hws Hrest1), peek_at.
  destruct (Ascii.eqb (Str.head rest1) Char.NUL); [now eexists _, _|].
  destruct (Char.isalpha (Str.head rest1) || Ascii.eqb (Str.head rest1) "_").
  { destruct (Lexer.KEYWORDS _); now eexists _, _. }
  destruct (Char.isdigit (Str.head rest1)) eqn:Hdig.
  - destruct (span Char.isdigit rest1 eq_refl) as (run & rest2 & -> & Hrun & Hrest2).
    rewrite (advance_while_run _ _ run rest2 Hrun Hrest2), slice_at.
    assert (Hne : is_empty run = false).
    { destruct run; [|reflexivity]. rewrite str_app_nil_l in Hdig. congruence. }
    assert (Hok : lexeme_ok (LNum run) = true).
    { cbn [lexeme_ok]. rewrite Hne. cbn [negb andb].
      apply andb_true_intro. split.
      - apply plain_digits; [exact Hrun|].
        cbn [at_ Lexer.src] in Hsrc. rewrite !all_app in Hsrc.
        apply andb_prop in Hsrc as [_ Hsrc]. apply andb_prop in Hsrc as [_ Hsrc].
        now apply andb_prop in Hsrc as [Hsrc _].
      - cbn [at_ Lexer.src] in Hruns. rewrite <- !str_app_assoc in Hruns.
        rewrite str_app_assoc in Hruns.
        apply runs_within_skip in Hruns as [k Hk].
        pose proof (runs_within_run run rest2 k Hrun Hne Hk) as Hlen.
        unfold within_limit. apply N.leb_le. lia. }
    rewrite (int_literal run Hok). now eexists _, _.
  - destruct (Lexer.advance _) as [c l2].
    repeat (destruct (Ascii.eqb c _); [now eexists _, _|]).
    now eexists _, _.
Qed.

Lemma next_token_returns_witness :
  exists tok l',
    Lexer.next_token {| Lexer.src := "a 007$"; Lexer.i := 1 |} = (Ret tok, l').
Proof.
  exact (next_token_returns {| Lexer.src := "a 007$"; Lexer.i := 1 |}
           ltac:(vm_compute; lia) eq_refl eq_refl).
Defined.

(** ** X18: literals are not negative *)

Lemma int_digits_nonneg (s : string) :
  forall acc z : Z, (0 <= acc)%Z -> int_digits acc s = Some z -> (0 <= z)%Z.
Proof.
  induction s as [|c r IH]; intros acc z Hacc; cbn [int_digits].
  - now intros [= <-].
  - destruct (Char.isdecimal c) eqn:Hc; [|discriminate].
    apply IH. unfold Char.isdecimal, Char.between in Hc.
    apply andb_prop in Hc as [Hlo _]. apply N.leb_le in Hlo. lia.
Qed.

Lemma next_token_number_ok (l l' : Lexer.t) (tok : Token) :
  Lexer.next_token l = (Ret tok, l') -> number_ok tok.
Proof.
  unfold Lexer.next_token, number_ok. cbv zeta.
  set (l1 := Lexer.consume_ws l).
  destruct (Ascii.eqb (Lexer.peek l1) Char.NUL);
    [intros [= <- _]; discriminate|].
  destruct (Char.isalpha (Lexer.peek l1) || Ascii.eqb (Lexer.peek l1) "_").
  { destruct (Lexer.KEYWORDS _) as [kw|] eqn:Hkw; intros [= <- _]; cbn [type val].
    - apply keyword_kinds in Hkw as [-> | [-> | ->]]; discriminate.
    - discriminate. }
  destruct (Char.isdigit (Lexer.peek l1)).
  { destruct (int _) as [num|] eqn:Hint; [|discriminate].
    intros [= <- _] _. cbn [val]. exists num. split; [reflexivity|].
    unfold int in Hint. destruct (substring _ _ _); [discriminate|].
    destruct (_ <? _)%N; [discriminate|].
    eapply int_digits_nonneg; [|exact Hint]. lia. }
  cbn [Lexer.advance]. intros H.
  destruct (Ascii.eqb (Lexer.peek l1) "+"); [injection H as <- _; discriminate|].
  destruct (Ascii.eqb (Lexer.peek l1) "-"); [injection H as <- _; discriminate|].
  destruct (Ascii.eqb (Lexer.peek l1) "*"); [injection H as <- _; discriminate|].
  destruct (Ascii.eqb (Lexer.peek l1) "/"); injection H as <- _; discriminate.
Qed.

Lemma keeps_bind {A B} (m : M Parser.t A) (k : A -> M Parser.t B) :
  keeps m -> (forall a, keeps (k a)) -> keeps (bind m k).
Proof.
  intros Hm Hk p b p' Hg Hb.
  apply bind_ret_inv in Hb as (a & p1 & H1 & H2).
  exact (Hk a p1 b p' (Hm p a p1 Hg H1) H2).
Qed.

Lemma keeps_match (typ : Tok.kind) : keeps (Parser.match_ typ).
Proof.
  intros p a p' [Hc Hp]. rewrite match_spec. destruct (Tok.eqb _ _).
  - destruct (Lexer.next_token (Parser.lexer p)) as [[tok| |] lx] eqn:Hn;
      try discriminate.
    intros [= _ <-]. split; [|exact Hp].
    now apply (next_token_number_ok _ _ _ Hn).
  - intros [= _ <-]. now split.
Qed.

Lemma keeps_emit (ins : instr) : push_ok ins -> keeps (Parser.emit ins).
Proof.
  intros Hok p a p' [Hc Hp] [= _ <-]. split; [exact Hc|].
  intros z Hin. cbn in Hin. apply in_app_or in Hin as [Hin | [Hin | []]].
  - now apply Hp.
  - now apply Hok.
Qed.

Lemma keeps_state {A} (m : M Parser.t A) :
  (forall p a p', m p = (Ret a, p') -> p' = p) -> keeps m.
Proof. intros H p a p' Hg Hm. now rewrite (H p a p' Hm). Qed.

Lemma keeps_gets {A} (f : Parser.t -> A) : keeps (gets f).
Proof. apply keeps_state. now intros p a p' [= _ <-]. Qed.

Lemma keeps_error {A} (msg : string) : keeps (@Parser.error A msg).
Proof. apply keeps_state. discriminate. Qed.

Lemma keeps_expect (typ : Tok.kind) : keeps (Parser.expect typ).
Proof.
  apply keeps_bind; [apply keeps_match|].
  intros [|]; [apply keeps_state; now intros p a p' [= _ <-] | apply keeps_error].
Qed.

Lemma keeps_expression : keeps Parser.expression.
Proof.
  assert (Hme : forall typ ins, push_ok ins ->
            keeps (exec Parser.match_ typ; Parser.emit ins)%py).
  { intros typ ins Hok. apply keeps_bind; [apply keeps_match|].
    intros _. now apply keeps_emit. }
  intros p a p' Hg. unfold Parser.expression, bind at 1, gets at 1. intros Hm.
  destruct (type (Parser.cur p)) eqn:Ht;
    try exact (keeps_error _ p a p' Hg Hm);
    try (refine (Hme _ _ _ p a p' Hg Hm); discriminate).
  - refine (keeps_bind _ _ (keeps_match _) _ p a p' Hg Hm). intros _.
    apply keeps_bind; [apply keeps_gets|]. intros c'.
    destruct (negb _); [apply keeps_error | apply Hme; discriminate].
  - refine (Hme _ _ _ p a p' Hg Hm). intros z [= <-].
    destruct (proj1 Hg Ht) as (n0 & -> & Hn0). exact Hn0.
Qed.

Lemma keeps_code_block_loop (fuel : nat) : keeps (Parser.code_block_loop fuel).
Proof.
  induction fuel as [|fuel IH]; cbn [Parser.code_block_loop];
    (apply keeps_bind; [apply keeps_gets|]); intros c;
    destruct (Parser.block_end (type c));
    try (apply keeps_state; unfold ret; now intros p a p' [= _ <-]).
  apply keeps_bind; [apply keeps_expression | intros _; exact IH].
Qed.

Lemma keeps_code_block : keeps Parser.code_block.
Proof. intros p a p'. unfold Parser.code_block. apply keeps_code_block_loop. Qed.

Lemma keeps_block (c : Token) :
  keeps (if Tok.eqb (type c) Tok.MAIN
         then (exec Parser.match_ Tok.MAIN;
               exec Parser.code_block;
               Parser.expect Tok.END)%py
         else Parser.code_block).
Proof.
  destruct (Tok.eqb _ _); [|apply keeps_code_block].
  apply keeps_bind; [apply keeps_match|]. intros _.
  apply keeps_bind; [apply keeps_code_block | intros _; apply keeps_expect].
Qed.

(** X18.  Every PUSH of a compiled program has an operand that is not
    negative: the source has no negative literal, and a negative value
    arises at run time only. *)
Theorem pushes_nonnegative (src : string) (code : list instr) (z : Z) :
  compile src = Ret code -> In (PUSH z) code -> (0 <= z)%Z.
Proof.
  unfold compile, Parser.init. intros H.
  destruct (Lexer.next_token (Lexer.init src)) as [[tok| |] lx] eqn:Hn;
    try discriminate H.
  destruct (Parser.program _) as [r p'] eqn:Hp. cbn [fst] in H. subst r.
  unfold Parser.program in Hp.
  apply bind_ret_inv in Hp as (c & p0 & H0 & Hp).
  apply bind_ret_inv in Hp as ([] & p1 & H1 & Hp).
  apply bind_ret_inv in Hp as ([] & p2 & H2 & Hp).
  apply bind_ret_inv in Hp as ([] & p3 & H3 & Hp).
  injection Hp as <- <-. injection H0 as <- <-.
  set (p := {| Parser.lexer := lx; Parser.cur := tok; Parser.code := [] |}) in *.
  assert (Hg : good p).
  { split; [now apply (next_token_number_ok _ _ _ Hn) | intros ? []]. }
  pose proof (keeps_block (Parser.cur p) p tt p1 Hg H1) as Hg1.
  pose proof (keeps_expect Tok.EOF p1 tt p2 Hg1 H2) as Hg2.
  pose proof (keeps_emit HALT ltac:(discriminate) p2 tt p3 Hg2 H3) as Hg3.
  apply Hg3.
Qed.

Lemma pushes_nonnegative_witness : (0 <= 5)%Z.
Proof.
  exact (pushes_nonnegative "3 5 -" [PUSH 3; PUSH 5; SUB; HALT] 5%Z eq_refl
           ltac:(simpl; tauto)).
Defined.

(** ** X19: the lexer's own [match] *)

(** X19.  [Lexer.match] on a character other than the end marker, with the
    cursor inside the source: the source is left alone and the cursor stays
    inside it; it answers true exactly when the character at the cursor is
    the expected one, and then moves the cursor by one; otherwise the lexer
    is left as it is. *)
Theorem lexer_match_consumes (l : Lexer.t) (expected : ascii) :
  Lexer.i l <= Lexer.n l ->
  expected <> Char.NUL ->
  Lexer.src (snd (Lexer.match_ expected l)) = Lexer.src l /\
  Lexer.i (snd (Lexer.match_ expected l)) <= Lexer.n l /\
  (fst (Lexer.match_ expected l) = true ->
   String.get (Lexer.i l) (Lexer.src l) = Some expected /\
   Lexer.i (snd (Lexer.match_ expected l)) = Lexer.i l + 1) /\
  (fst (Lexer.match_ expected l) = false ->
   String.get (Lexer.i l) (Lexer.src l) <> Some expected /\
   snd (Lexer.match_ expected l) = l).
Proof.
  intros Hin Hnul. unfold Lexer.match_.
  destruct (Ascii.eqb (Lexer.peek l) expected) eqn:Heq; cbn [fst snd Lexer.src Lexer.i].
  - apply Ascii.eqb_eq in Heq.
    assert (Hlt : Lexer.i l < Lexer.n l).
    { apply peek_inside. congruence. }
    repeat split; try lia; try discriminate.
    unfold Lexer.peek in Heq. apply Nat.ltb_lt in Hlt. rewrite Hlt in Heq.
    destruct (get (Lexer.i l) (Lexer.src l)); congruence.
  - apply Ascii.eqb_neq in Heq.
    repeat split; try lia; try discriminate.
    intros Hget. apply Heq. unfold Lexer.peek. rewrite Hget.
    destruct (Lexer.i l <? Lexer.n l) eqn:Hlt; [reflexivity|].
    apply Nat.ltb_ge in Hlt.
    assert (Hnone : get (Lexer.i l) (Lexer.src l) = None).
    { destruct (lexer_at l Hin) as (pre & rest & ->).
      unfold Lexer.n, at_ in *. cbn [Lexer.src Lexer.i] in *.
      rewrite str_length_app in Hlt. destruct rest; [|simpl in Hlt; lia].
      apply str_get_app. }
    congruence.
Qed.

Lemma lexer_match_consumes_witness :
  Lexer.i (snd (Lexer.match_ "+" {| Lexer.src := "1+"; Lexer.i := 1 |})) = 2.
Proof.
  exact (proj2 (proj1 (proj2 (proj2
           (lexer_match_consumes {| Lexer.src := "1+"; Lexer.i := 1 |} "+"
              ltac:(vm_compute; lia) ltac:(discriminate)))) eq_refl)).
Defined.

(** ** X20: the pipeline ends *)

(** X20.  On every source, compilation returns a program or raises, and
    [compile_and_run] returns or raises: the loop of the code block moves
    the lexer forward in every iteration but the last, and the loop of the
    machine moves [pc]. *)
Theorem pipeline_terminates (src : string) :
  compile src <> Timeout /\ compile_and_run src <> Timeout.
Proof. split; [apply compile_total | apply compile_and_run_total]. Qed.

(** ** X21: digit runs that [int] rejects *)

Lemma digit_char (c : ascii) :
  Char.isdigit c = true ->
  Char.isspace c = false /\ Ascii.eqb c Char.NUL = false /\
  Char.isalpha c = false /\ Ascii.eqb c "_" = false.
Proof. each_char c. Qed.

Lemma int_digits_rejects (s : string) :
  forall acc : Z, Str.all Char.isdecimal s = false -> int_digits acc s = None.
Proof.
  induction s as [|c r IH]; intros acc; cbn [Str.all int_digits];
    [discriminate|].
  destruct (Char.isdecimal c); [apply IH | reflexivity].
Qed.

Lemma int_rejects (s : string) :
  Str.all Char.isdecimal s && within_limit s = false -> int s = None.
Proof.
  intros H. unfold int. destruct s as [|c r]; [reflexivity|].
  unfold within_limit in H.
  destruct (N.ltb_spec MAX_STR_DIGITS (N.of_nat (String.length (String c r))))
    as [Hlt | Hge]; [reflexivity|].
  apply N.leb_le in Hge. rewrite Hge, andb_true_r in H.
  now apply int_digits_rejects.
Qed.

(** X21.  Behind any white space, a run of [isdigit] characters that holds
    a superscript digit or is longer than the 4300 digits that [int]
    converts makes [next_token] raise the [ValueError] of [int] on the run;
    the cursor is then behind the run. *)
Theorem digit_run_rejected (pre gap digits rest : string) :
  Str.all Char.isspace gap = true ->
  is_empty digits = false ->
  Str.all Char.isdigit digits = true ->
  Char.isdigit (Str.head rest) = false ->
  Str.all Char.isdecimal digits && within_limit digits = false ->
  Lexer.next_token (at_ pre (gap +:+ digits +:+ rest)) =
  (Raise (ValueError digits), at_ ((pre +:+ gap) +:+ digits) rest).
Proof.
  intros Hgap Hne Hall Hrest Hbad.
  destruct digits as [|c r]; [discriminate Hne|].
  pose proof Hall as Hall'. cbn [Str.all] in Hall'.
  apply andb_prop in Hall' as [Hc _].
  destruct (digit_char c Hc) as (Hsp & Hnul & Hal & Hun).
  unfold Lexer.next_token. cbv zeta.
  rewrite consume_ws_at by (rewrite ?str_app_cons; assumption).
  rewrite peek_at, str_app_cons. cbn [Str.head].
  rewrite Hnul, Hal, Hun, Hc. cbn [orb].
  rewrite <- str_app_cons.
  rewrite advance_while_run by assumption.
  rewrite slice_at, (int_rejects _ Hbad). reflexivity.
Qed.

Lemma digit_run_rejected_witness :
  Lexer.next_token (at_ "x" (" " +:+ String "1" (Str.one "178"%char) +:+ "+")) =
  (Raise (ValueError (String "1" (Str.one "178"%char))),
   at_ (("x" +:+ " ") +:+ String "1" (Str.one "178"%char)) "+").
Proof.
  exact (digit_run_rejected "x" " " (String "1" (Str.one "178"%char)) "+"
           eq_refl eq_refl eq_refl eq_refl eq_refl).
Defined.
